(** * shared_ptr.h: a reference-counted owning pointer and its weak companion

    A shallow embedding of [src/shared_ptr.h].  Control blocks live in a heap
    indexed by their address; handles ([shared_ptr], [weak_ptr]) are pairs of
    raw addresses; member functions are computations in a small monad that
    threads the machine state and distinguishes normal return, a propagating
    C++ exception and undefined behaviour (an access through a pointer to a
    block that is not allocated).

    Conventions of the model:
    - [size_t] has 64 bits and its arithmetic wraps;
    - calling a deleter and running a payload destructor are recorded as
      events; what they do to the payload itself is outside the header, and
      they are taken not to operate on handles;
    - [operator new] fails or succeeds as the state's [plan] says, and a
      new-expression whose constructor throws gives the storage back;
    - the objects of type [shared_ptr] and [weak_ptr] of the client program
      are kept in two stores, so that references to them can alias. *)

From stdpp Require Import gmap list fin_maps fin_sets infinite.
From Stdlib Require Import ZArith Lia.

Open Scope Z_scope.

(** ** Machine data *)

(** The null pointer value. *)
Definition nullptr : Z := 0.
Arguments nullptr : simpl never.

(** [size_t] is taken to be 64 bits wide; arithmetic on it wraps. *)
Definition SIZE_MAX : Z := 2 ^ 64 - 1.
Definition size_t (z : Z) : Z := z mod 2 ^ 64.

(** A deleter object is identified by a tag: calling it is an observable
    event, its code is not part of this header. *)
Definition deleter := nat.

(** The two classes derived from [control_block]. *)
Inductive cb_variant :=
| control_block_ptr (ptr : Z) (d : deleter)  (* Y* ptr; base D *)
| control_block_obj.                         (* aligned_storage data *)

(** [struct control_block]: the two counters, and the dynamic type that
    selects the override of [delete_object]. *)
Record control_block := ControlBlock {
  ref_count : Z;
  weak_count : Z;
  variant : cb_variant
}.

(** [template <typename T> struct shared_ptr]: [control_block* cb; T* ptr]. *)
Record shared_ptr := SharedPtr { s_cb : Z; s_ptr : Z }.

(** [template <typename T> struct weak_ptr]: [control_block* cb; T* ptr]. *)
Record weak_ptr := WeakPtr { w_cb : Z; w_ptr : Z }.

(** What the outside world can observe of a run. *)
Inductive event :=
| EvNew (bl : Z)                        (* operator new returned bl *)
| EvDelete (bl : Z)                     (* operator delete released bl *)
| EvDeleteObject (bl : Z)               (* virtual call bl->delete_object() *)
| EvDeleter (d : deleter) (p : Z)       (* the deleter d was called on p *)
| EvConstruct (p : Z) (args : list Z)   (* new (p) Y(args...) completed *)
| EvDestroy (p : Z).                    (* p->~Y() *)

Inductive exn :=
| bad_alloc
| payload_error (code : Z).

(** A payload class [Y] as far as [make_shared] sees it: its constructor
    either returns or throws, depending on the arguments. *)
Record payload_class := PayloadClass {
  ctor_throws : list Z -> option exn
}.

(** The machine state.  [heap] holds the control blocks that are allocated;
    [plan] says which of the coming requests to [operator new] succeed (once
    it is used up, every request succeeds); [shared] and [weak] are the handle
    objects of the client program, referred to by position, so that two
    references can denote the same object. *)
Record state := State {
  heap : gmap Z control_block;
  events : list event;
  plan : list bool;
  shared : list shared_ptr;
  weak : list weak_ptr
}.

Definition set_heap (f : gmap Z control_block -> gmap Z control_block) (σ : state) : state :=
  State (f (heap σ)) (events σ) (plan σ) (shared σ) (weak σ).
Definition set_events (f : list event -> list event) (σ : state) : state :=
  State (heap σ) (f (events σ)) (plan σ) (shared σ) (weak σ).
Definition set_plan (f : list bool -> list bool) (σ : state) : state :=
  State (heap σ) (events σ) (f (plan σ)) (shared σ) (weak σ).
Definition set_shared (f : list shared_ptr -> list shared_ptr) (σ : state) : state :=
  State (heap σ) (events σ) (plan σ) (f (shared σ)) (weak σ).
Definition set_weak (f : list weak_ptr -> list weak_ptr) (σ : state) : state :=
  State (heap σ) (events σ) (plan σ) (shared σ) (f (weak σ)).

(** ** The monad *)

Inductive outcome (A : Type) :=
| Ok (a : A) (σ : state)
| Throw (e : exn) (σ : state)
| Undefined.
Arguments Ok {A} a σ.
Arguments Throw {A} e σ.
Arguments Undefined {A}.

Definition M (A : Type) : Type := state -> outcome A.

Definition ret {A} (a : A) : M A := fun σ => Ok a σ.
Definition bind {A B} (m : M A) (k : A -> M B) : M B := fun σ =>
  match m σ with
  | Ok a σ' => k a σ'
  | Throw e σ' => Throw e σ'
  | Undefined => Undefined
  end.
Definition throw {A} (e : exn) : M A := fun σ => Throw e σ.
Definition undefined {A} : M A := fun _ => Undefined.

(** [try { m } catch (...) { h }] where the handler receives the exception
    in flight (so that [throw;] can rethrow it). *)
Definition try_catch {A} (m : M A) (h : exn -> M A) : M A := fun σ =>
  match m σ with
  | Throw e σ' => h e σ'
  | r => r
  end.

Notation "'let*' x ':=' m 'in' k" := (bind m (fun x => k))
  (at level 10, x name, m at level 100, k at level 200).
Notation "m ';;;' k" := (bind m (fun _ => k))
  (at level 100, k at level 200, right associativity).

Definition log (e : event) : M unit := fun σ =>
  Ok tt (set_events (fun l => l ++ [e]) σ).

(** Dereferencing a [control_block*]: undefined when no block lives there. *)
Definition load (bl : Z) : M control_block := fun σ =>
  match heap σ !! bl with
  | Some b => Ok b σ
  | None => Undefined
  end.

Definition store (bl : Z) (b : control_block) : M unit := fun σ =>
  match heap σ !! bl with
  | Some _ => Ok tt (set_heap (insert bl b) σ)
  | None => Undefined
  end.

(** ** Allocation *)

(** The address the allocator hands out next: not null, not in use. *)
Definition fresh_addr (h : gmap Z control_block) : Z := fresh ({[nullptr]} ∪ dom h).

Definition operator_new : M Z := fun σ =>
  match plan σ with
  | false :: pl => Throw bad_alloc (set_plan (fun _ => pl) σ)
  | _ =>
    let bl := fresh_addr (heap σ) in
    Ok bl (set_events (fun l => l ++ [EvNew bl]) (set_plan (fun pl => tail pl) σ))
  end.

Definition operator_delete (bl : Z) : M unit := log (EvDelete bl).

(** A fully constructed block appears in the heap. *)
Definition emplace (bl : Z) (b : control_block) : M unit := fun σ =>
  Ok tt (set_heap (insert bl b) σ).

(** [delete cb]: the (defaulted, virtual) destructor does nothing to the
    payload; the storage goes back to the allocator. *)
Definition delete_cb (bl : Z) : M unit :=
  let* _ := load bl in
  (fun σ => Ok tt (set_heap (delete bl) σ)) ;;;
  operator_delete bl.

(** ** [struct control_block] *)

(** Address of the member [data] of the [control_block_obj] at [bl]:
    it follows the vtable pointer and the two counters. *)
Definition data_addr (bl : Z) : Z := bl + 24.

(** [virtual void delete_object()] with its two overrides. *)
Definition delete_object (bl : Z) : M unit :=
  let* b := load bl in
  log (EvDeleteObject bl) ;;;
  match variant b with
  | control_block_ptr p d => log (EvDeleter d p)
  | control_block_obj => log (EvDestroy (data_addr bl))
  end.

Definition release_ref (bl : Z) : M unit :=
  let* b := load bl in
  store bl (ControlBlock (size_t (ref_count b - 1)) (weak_count b) (variant b)) ;;;
  let* b' := load bl in
  if ref_count b' =? 0 then delete_object bl else ret tt.

Definition release_weak (bl : Z) : M unit :=
  let* b := load bl in
  store bl (ControlBlock (ref_count b) (size_t (weak_count b - 1)) (variant b)).

Definition add_ref (bl : Z) : M unit :=
  let* b := load bl in
  store bl (ControlBlock (size_t (ref_count b + 1)) (weak_count b) (variant b)).

Definition add_weak (bl : Z) : M unit :=
  let* b := load bl in
  store bl (ControlBlock (ref_count b) (size_t (weak_count b + 1)) (variant b)).

Definition cb_use_count (bl : Z) : M Z :=
  let* b := load bl in ret (ref_count b).

Definition cb_weak_use_count (bl : Z) : M Z :=
  let* b := load bl in ret (weak_count b).

(** [new control_block_ptr(p, d)]: counters start at 1 and 0. *)
Definition new_control_block_ptr (p : Z) (d : deleter) : M Z :=
  let* bl := operator_new in
  emplace bl (ControlBlock 1 0 (control_block_ptr p d)) ;;;
  ret bl.

(** [new control_block_obj<Y>(args...)]: the constructor builds the payload
    in [data]; when that throws, the new-expression gives the storage back
    and the exception goes on. *)
Definition new_control_block_obj (Y : payload_class) (args : list Z) : M Z :=
  let* bl := operator_new in
  match ctor_throws Y args with
  | Some e => operator_delete bl ;;; throw e
  | None =>
    log (EvConstruct (data_addr bl) args) ;;;
    emplace bl (ControlBlock 1 0 control_block_obj) ;;;
    ret bl
  end.

(** ** [struct shared_ptr] *)

(** [constexpr shared_ptr() noexcept = default] and [shared_ptr(nullptr_t)]:
    both members keep their default initialiser. *)
Definition shared_ptr_default : shared_ptr := SharedPtr nullptr nullptr.
Definition shared_ptr_nullptr : shared_ptr := SharedPtr nullptr nullptr.

(** [shared_ptr(shared_ptr const& rhs)], and the converting copy from
    [shared_ptr<Y>], which has the same body. *)
Definition shared_ptr_copy (rhs : shared_ptr) : M shared_ptr :=
  let this := SharedPtr (s_cb rhs) (s_ptr rhs) in
  (if s_cb this =? nullptr then ret tt else add_ref (s_cb this)) ;;;
  ret this.

(** [explicit shared_ptr(Y* p, D deleter)]. *)
Definition shared_ptr_from_raw (p : Z) (d : deleter) : M shared_ptr :=
  try_catch
    (let* bl := new_control_block_ptr p d in
     ret (SharedPtr bl p))
    (fun e => log (EvDeleter d p) ;;; throw e).

(** [shared_ptr(shared_ptr<Y> const& r, T* ptr)], the aliasing constructor. *)
Definition shared_ptr_alias (r : shared_ptr) (p : Z) : M shared_ptr :=
  let this := SharedPtr (s_cb r) p in
  (if s_cb this =? nullptr then ret tt else add_ref (s_cb this)) ;;;
  ret this.

(** [shared_ptr(shared_ptr&& rhs)]: the new object, and what is left of
    [rhs]. *)
Definition shared_ptr_move (rhs : shared_ptr) : shared_ptr * shared_ptr :=
  (SharedPtr (s_cb rhs) (s_ptr rhs), SharedPtr nullptr nullptr).

(** [shared_ptr(weak_ptr<Y> const& r)]. *)
Definition shared_ptr_from_weak (r : weak_ptr) : M shared_ptr :=
  let this := SharedPtr (w_cb r) (w_ptr r) in
  (if s_cb this =? nullptr then ret tt else add_ref (s_cb this)) ;;;
  ret this.

(** [std::swap] on both members: the values of [*this] and [r] afterwards. *)
Definition shared_ptr_swap (this r : shared_ptr) : shared_ptr * shared_ptr :=
  (SharedPtr (s_cb r) (s_ptr r), SharedPtr (s_cb this) (s_ptr this)).

(** [~shared_ptr()]. *)
Definition shared_ptr_dtor (this : shared_ptr) : M unit :=
  if s_cb this =? nullptr then ret tt
  else
    release_ref (s_cb this) ;;;
    let* u := cb_use_count (s_cb this) in
    if u =? 0 then
      let* w := cb_weak_use_count (s_cb this) in
      if w =? 0 then delete_cb (s_cb this) else ret tt
    else ret tt.

Definition shared_ptr_get (this : shared_ptr) : Z := s_ptr this.

(** [explicit operator bool()]. *)
Definition shared_ptr_bool (this : shared_ptr) : bool := negb (s_ptr this =? nullptr).

Definition shared_ptr_use_count (this : shared_ptr) : M Z :=
  if s_cb this =? nullptr then ret 0 else cb_use_count (s_cb this).

(** [operator==] and [operator!=], between handles and against [nullptr]. *)
Definition shared_ptr_eq (lhs rhs : shared_ptr) : bool :=
  shared_ptr_get lhs =? shared_ptr_get rhs.
Definition shared_ptr_ne (lhs rhs : shared_ptr) : bool :=
  negb (shared_ptr_get lhs =? shared_ptr_get rhs).
Definition shared_ptr_eq_nullptr (lhs : shared_ptr) : bool :=
  shared_ptr_get lhs =? nullptr.
Definition shared_ptr_ne_nullptr (lhs : shared_ptr) : bool :=
  negb (shared_ptr_get lhs =? nullptr).

(** [void reset()]: [shared_ptr().swap( *this)], then the temporary dies.
    The result is the new value of [*this]. *)
Definition shared_ptr_reset (this : shared_ptr) : M shared_ptr :=
  let '(tmp, this') := shared_ptr_swap shared_ptr_default this in
  shared_ptr_dtor tmp ;;;
  ret this'.

(** [void reset(Y* ptr, Deleter d)]. *)
Definition shared_ptr_reset_raw (this : shared_ptr) (p : Z) (d : deleter) : M shared_ptr :=
  let* tmp := shared_ptr_from_raw p d in
  let '(tmp', this') := shared_ptr_swap tmp this in
  shared_ptr_dtor tmp' ;;;
  ret this'.

(** [make_shared<A>(args...)]. *)
Definition make_shared (A : payload_class) (args : list Z) : M shared_ptr :=
  let* bl := new_control_block_obj A args in
  let cur := shared_ptr_default in
  let cur := SharedPtr bl (s_ptr cur) in
  let cur := SharedPtr (s_cb cur) (data_addr bl) in
  ret cur.

(** ** [struct weak_ptr] *)

Definition weak_ptr_default : weak_ptr := WeakPtr nullptr nullptr.

(** [weak_ptr(weak_ptr const& r)]. *)
Definition weak_ptr_copy (r : weak_ptr) : M weak_ptr :=
  let this := WeakPtr (w_cb r) (w_ptr r) in
  (if w_cb this =? nullptr then ret tt else add_weak (w_cb this)) ;;;
  ret this.

(** [weak_ptr(weak_ptr&& r)]. *)
Definition weak_ptr_move (r : weak_ptr) : weak_ptr * weak_ptr :=
  (WeakPtr (w_cb r) (w_ptr r), WeakPtr nullptr nullptr).

(** [weak_ptr(shared_ptr<Y> const& r)]. *)
Definition weak_ptr_from_shared (r : shared_ptr) : M weak_ptr :=
  let this := WeakPtr (s_cb r) (s_ptr r) in
  (if w_cb this =? nullptr then ret tt else add_weak (w_cb this)) ;;;
  ret this.

Definition weak_ptr_use_count (this : weak_ptr) : M Z :=
  if w_cb this =? nullptr then ret 0 else cb_use_count (w_cb this).

Definition weak_ptr_expired (this : weak_ptr) : M bool :=
  let* u := weak_ptr_use_count this in ret (u =? 0).

Definition weak_ptr_lock (this : weak_ptr) : M shared_ptr :=
  let* e := weak_ptr_expired this in
  if negb e then shared_ptr_from_weak this else ret shared_ptr_default.

Definition weak_ptr_swap (this rhs : weak_ptr) : weak_ptr * weak_ptr :=
  (WeakPtr (w_cb rhs) (w_ptr rhs), WeakPtr (w_cb this) (w_ptr this)).

(** [~weak_ptr()]. *)
Definition weak_ptr_dtor (this : weak_ptr) : M unit :=
  if w_cb this =? nullptr then ret tt
  else
    release_weak (w_cb this) ;;;
    let* u := cb_use_count (w_cb this) in
    if u =? 0 then
      let* w := cb_weak_use_count (w_cb this) in
      if w =? 0 then delete_cb (w_cb this) else ret tt
    else ret tt.

(** ** Handle objects and references to them

    The assignment operators compare and mutate objects through references,
    so they are stated on the handle objects of the state; a reference is
    the position of the object.  Using a reference to no object is
    undefined. *)

Definition read_shared (i : nat) : M shared_ptr := fun σ =>
  match shared σ !! i with
  | Some h => Ok h σ
  | None => Undefined
  end.

Definition write_shared (i : nat) (h : shared_ptr) : M unit := fun σ =>
  match shared σ !! i with
  | Some _ => Ok tt (set_shared (fun l => <[i := h]> l) σ)
  | None => Undefined
  end.

Definition read_weak (i : nat) : M weak_ptr := fun σ =>
  match weak σ !! i with
  | Some h => Ok h σ
  | None => Undefined
  end.

Definition write_weak (i : nat) (h : weak_ptr) : M unit := fun σ =>
  match weak σ !! i with
  | Some _ => Ok tt (set_weak (fun l => <[i := h]> l) σ)
  | None => Undefined
  end.

(** [shared_ptr& operator=(shared_ptr const& rhs)]:
    [shared_ptr(rhs).swap( *this)], then the temporary is destroyed. *)
Definition shared_ptr_assign_copy (this rhs : nat) : M unit :=
  let* r := read_shared rhs in
  let* tmp := shared_ptr_copy r in
  let* t := read_shared this in
  let '(tmp', t') := shared_ptr_swap tmp t in
  write_shared this t' ;;;
  shared_ptr_dtor tmp'.

(** [shared_ptr& operator=(shared_ptr&& rhs)]. *)
Definition shared_ptr_assign_move (this rhs : nat) : M unit :=
  if negb (Nat.eqb this rhs) then
    let* r := read_shared rhs in
    let '(tmp, r') := shared_ptr_move r in
    write_shared rhs r' ;;;
    let* t := read_shared this in
    let '(tmp', t') := shared_ptr_swap tmp t in
    write_shared this t' ;;;
    shared_ptr_dtor tmp'
  else ret tt.

(** [weak_ptr& operator=(weak_ptr const& rhs)]. *)
Definition weak_ptr_assign_copy (this rhs : nat) : M unit :=
  let* r := read_weak rhs in
  let* tmp := weak_ptr_copy r in
  let* t := read_weak this in
  let '(tmp', t') := weak_ptr_swap tmp t in
  write_weak this t' ;;;
  weak_ptr_dtor tmp'.

(** [weak_ptr& operator=(weak_ptr&& rhs)]. *)
Definition weak_ptr_assign_move (this rhs : nat) : M unit :=
  if negb (Nat.eqb this rhs) then
    let* r := read_weak rhs in
    let '(tmp, r') := weak_ptr_move r in
    write_weak rhs r' ;;;
    let* t := read_weak this in
    let '(tmp', t') := weak_ptr_swap tmp t in
    write_weak this t' ;;;
    weak_ptr_dtor tmp'
  else ret tt.

(** ** Client programs

    A client program is a sequence of statements that create, assign and
    destroy handle objects.  Handle objects are kept in [shared] and [weak];
    a statement names its operands by position. *)

Inductive op :=
| OpNew (p : Z) (d : deleter)               (* shared_ptr<T> q(p, d);       *)
| OpMake (A : payload_class) (args : list Z) (* auto q = make_shared<A>(..); *)
| OpCopy (i : nat)                          (* shared_ptr<T> q(s_i);        *)
| OpAlias (i : nat) (p : Z)                 (* shared_ptr<T> q(s_i, p);     *)
| OpMove (i : nat)                          (* shared_ptr<T> q(move(s_i));  *)
| OpUpgrade (j : nat)                       (* shared_ptr<T> q(w_j);        *)
| OpLock (j : nat)                          (* auto q = w_j.lock();         *)
| OpAssignCopy (i k : nat)                  (* s_i = s_k;                   *)
| OpAssignMove (i k : nat)                  (* s_i = move(s_k);             *)
| OpReset (i : nat)                         (* s_i.reset();                 *)
| OpDestroy (i : nat)                       (* s_i goes out of scope        *)
| OpWeak (i : nat)                          (* weak_ptr<T> v(s_i);          *)
| OpWeakCopy (j : nat)                      (* weak_ptr<T> v(w_j);          *)
| OpWeakMove (j : nat)                      (* weak_ptr<T> v(move(w_j));    *)
| OpWeakAssignCopy (j k : nat)              (* w_j = w_k;                   *)
| OpWeakAssignMove (j k : nat)              (* w_j = move(w_k);             *)
| OpWeakDestroy (j : nat).                  (* w_j goes out of scope        *)

Definition push_shared (h : shared_ptr) : M unit := fun σ =>
  Ok tt (set_shared (fun l => l ++ [h]) σ).
Definition drop_shared (i : nat) : M unit := fun σ =>
  Ok tt (set_shared (fun l => delete i l) σ).
Definition push_weak (h : weak_ptr) : M unit := fun σ =>
  Ok tt (set_weak (fun l => l ++ [h]) σ).
Definition drop_weak (i : nat) : M unit := fun σ =>
  Ok tt (set_weak (fun l => delete i l) σ).

Definition exec (o : op) : M unit :=
  match o with
  | OpNew p d => let* n := shared_ptr_from_raw p d in push_shared n
  | OpMake A args => let* n := make_shared A args in push_shared n
  | OpCopy i => let* h := read_shared i in let* n := shared_ptr_copy h in push_shared n
  | OpAlias i p => let* h := read_shared i in let* n := shared_ptr_alias h p in push_shared n
  | OpMove i =>
    let* h := read_shared i in
    let '(n, h') := shared_ptr_move h in
    write_shared i h' ;;; push_shared n
  | OpUpgrade j => let* w := read_weak j in let* n := shared_ptr_from_weak w in push_shared n
  | OpLock j => let* w := read_weak j in let* n := weak_ptr_lock w in push_shared n
  | OpAssignCopy i k => shared_ptr_assign_copy i k
  | OpAssignMove i k => shared_ptr_assign_move i k
  | OpReset i => let* h := read_shared i in let* h' := shared_ptr_reset h in write_shared i h'
  | OpDestroy i => let* h := read_shared i in shared_ptr_dtor h ;;; drop_shared i
  | OpWeak i => let* h := read_shared i in let* n := weak_ptr_from_shared h in push_weak n
  | OpWeakCopy j => let* w := read_weak j in let* n := weak_ptr_copy w in push_weak n
  | OpWeakMove j =>
    let* w := read_weak j in
    let '(n, w') := weak_ptr_move w in
    write_weak j w' ;;; push_weak n
  | OpWeakAssignCopy j k => weak_ptr_assign_copy j k
  | OpWeakAssignMove j k => weak_ptr_assign_move j k
  | OpWeakDestroy j => let* w := read_weak j in weak_ptr_dtor w ;;; drop_weak j
  end.

Fixpoint run (tr : list op) : M unit :=
  match tr with
  | [] => ret tt
  | o :: tr' => exec o ;;; run tr'
  end.

(** A handle object occupies sixteen bytes, so a 64-bit address space holds
    fewer than [2 ^ 60] of them. *)
Definition max_handles : Z := 2 ^ 60.

Definition has_shared (i : nat) (σ : state) : bool := bool_decide (i < length (shared σ))%nat.
Definition has_weak (j : nat) (σ : state) : bool := bool_decide (j < length (weak σ))%nat.
Definition room_shared (σ : state) : bool := Z.of_nat (length (shared σ)) <? max_handles.
Definition room_weak (σ : state) : bool := Z.of_nat (length (weak σ)) <? max_handles.

(** A statement can be written at a point of the program when its operands
    exist and there is room for the object it declares. *)
Definition applicable (o : op) (σ : state) : bool :=
  match o with
  | OpNew _ _ | OpMake _ _ => room_shared σ
  | OpCopy i | OpAlias i _ | OpMove i => has_shared i σ && room_shared σ
  | OpUpgrade j | OpLock j => has_weak j σ && room_shared σ
  | OpAssignCopy i k | OpAssignMove i k => has_shared i σ && has_shared k σ
  | OpReset i | OpDestroy i => has_shared i σ
  | OpWeak i => has_shared i σ && room_weak σ
  | OpWeakCopy j | OpWeakMove j => has_weak j σ && room_weak σ
  | OpWeakAssignCopy j k | OpWeakAssignMove j k => has_weak j σ && has_weak k σ
  | OpWeakDestroy j => has_weak j σ
  end.

(** A well-formed program: every statement is applicable where it stands.
    (A statement that throws or misbehaves ends the run.) *)
Fixpoint trace_ok (tr : list op) (σ : state) : bool :=
  match tr with
  | [] => true
  | o :: tr' =>
    applicable o σ &&
    match exec o σ with
    | Ok _ σ' => trace_ok tr' σ'
    | _ => true
    end
  end.

(** The program starts with no block and no handle. *)
Definition init (pl : list bool) : state := State ∅ [] pl [] [].

Definition is_alloc (o : op) : bool :=
  match o with OpNew _ _ | OpMake _ _ => true | _ => false end.
Definition is_upgrade (o : op) : bool :=
  match o with OpUpgrade _ => true | _ => false end.

(** ** Counting *)

(** Number of handles of a list whose [cb] member is [bl]. *)
Fixpoint count_cb {A} (f : A -> Z) (bl : Z) (l : list A) : Z :=
  match l with
  | [] => 0
  | h :: l' => (if f h =? bl then 1 else 0) + count_cb f bl l'
  end.
Definition owners (bl : Z) (l : list shared_ptr) : Z := count_cb s_cb bl l.
Definition watchers (bl : Z) (l : list weak_ptr) : Z := count_cb w_cb bl l.

Definition is_delete_object (bl : Z) (e : event) : bool :=
  match e with EvDeleteObject b => b =? bl | _ => false end.
Definition is_delete (bl : Z) (e : event) : bool :=
  match e with EvDelete b => b =? bl | _ => false end.

(** How often the payload of [bl] was destroyed, how often [bl] was freed. *)
Definition destroyed (bl : Z) (l : list event) : nat :=
  length (List.filter (is_delete_object bl) l).
Definition freed (bl : Z) (l : list event) : nat :=
  length (List.filter (is_delete bl) l).

(** The counters of every block agree with the handles that exist, and a
    block is allocated exactly as long as some handle refers to it. *)
Definition consistent (h : gmap Z control_block) (S : list shared_ptr) (W : list weak_ptr) : Prop :=
  forall bl, bl <> nullptr ->
    match h !! bl with
    | Some b =>
      ref_count b = owners bl S /\ weak_count b = watchers bl W /\
      0 < owners bl S + watchers bl W /\
      owners bl S <= SIZE_MAX /\ watchers bl W <= SIZE_MAX
    | None => owners bl S = 0 /\ watchers bl W = 0
    end.

Definition wf (σ : state) : Prop :=
  consistent (heap σ) (shared σ) (weak σ) /\
  Z.of_nat (length (shared σ)) <= max_handles /\
  Z.of_nat (length (weak σ)) <= max_handles.

(** What [delete_object] does to the payload of the block at [bl]. *)
Definition payload_events (bl : Z) (v : cb_variant) : list event :=
  match v with
  | control_block_ptr p d => [EvDeleter d p]
  | control_block_obj => [EvDestroy (data_addr bl)]
  end.

Definition with_ref (b : control_block) (r : Z) : control_block :=
  ControlBlock r (weak_count b) (variant b).
Definition with_weak (b : control_block) (n : Z) : control_block :=
  ControlBlock (ref_count b) n (variant b).

(** The bookkeeping of one block [bl0] since a point of the run where it
    was allocated with a live payload, [d0] and [f0] being the number of
    payload destructions and of deallocations at [bl0] logged before that
    point: the payload has been destroyed once more exactly if the strong
    count is zero or the block is gone, and the block has been freed once
    more exactly if it is gone. *)
Definition tracked (bl0 : Z) (d0 f0 : nat) (h : gmap Z control_block) (e : list event) : Prop :=
  match h !! bl0 with
  | Some b =>
    destroyed bl0 e = (d0 + (if (ref_count b =? 0)%Z then 1 else 0))%nat /\ freed bl0 e = f0
  | None => destroyed bl0 e = S d0 /\ freed bl0 e = S f0
  end.

Definition inv (track : option (Z * nat * nat)) (h : gmap Z control_block)
    (e : list event) (S : list shared_ptr) (W : list weak_ptr) : Prop :=
  consistent h S W /\
  match track with
  | Some (bl0, d0, f0) => tracked bl0 d0 f0 h e
  | None => True
  end.

(** The state a release of a strong (resp. weak) reference on [c] leaves,
    [b] being the block found at [c]. *)
Definition heap_after_release_ref (c : Z) (b : control_block) (h : gmap Z control_block) :=
  if (size_t (ref_count b - 1) =? 0) && (weak_count b =? 0) then delete c h
  else <[c := with_ref b (size_t (ref_count b - 1))]> h.
Definition events_of_release_ref (c : Z) (b : control_block) : list event :=
  (if size_t (ref_count b - 1) =? 0
   then EvDeleteObject c :: payload_events c (variant b) else []) ++
  (if (size_t (ref_count b - 1) =? 0) && (weak_count b =? 0) then [EvDelete c] else []).
Definition heap_after_release_weak (c : Z) (b : control_block) (h : gmap Z control_block) :=
  if (ref_count b =? 0) && (size_t (weak_count b - 1) =? 0) then delete c h
  else <[c := with_weak b (size_t (weak_count b - 1))]> h.
Definition events_of_release_weak (c : Z) (b : control_block) : list event :=
  if (ref_count b =? 0) && (size_t (weak_count b - 1) =? 0) then [EvDelete c] else [].

(** The invariant of a run: the bookkeeping above, and handle stores within
    their capacity. *)
Definition good (track : option (Z * nat * nat)) (σ : state) : Prop :=
  inv track (heap σ) (events σ) (shared σ) (weak σ) /\
  Z.of_nat (length (shared σ)) <= max_handles /\
  Z.of_nat (length (weak σ)) <= max_handles.

(** A statement preserves the invariant when it returns or throws, and does
    not run into undefined behaviour; while a block is tracked (no
    allocation takes place then) it returns. *)
Definition preserved (track : option (Z * nat * nat)) (r : outcome unit) : Prop :=
  match r with
  | Ok _ σ' => good track σ'
  | Throw _ σ' => track = None /\ good track σ'
  | Undefined => False
  end.

(** Statements that neither allocate a block nor construct a [shared_ptr]
    directly from a [weak_ptr]. *)
Definition plain (o : op) : bool := negb (is_alloc o) && negb (is_upgrade o).

(** The handle refers to no block, or to an allocated block on which at
    least one strong (resp. weak) reference is counted. *)
Definition holds_strong (σ : state) (x : shared_ptr) : bool :=
  (s_cb x =? nullptr) ||
  match heap σ !! s_cb x with
  | Some b => (1 <=? ref_count b) && (ref_count b <=? SIZE_MAX)
  | None => false
  end.
Definition holds_weak (σ : state) (y : weak_ptr) : bool :=
  (w_cb y =? nullptr) ||
  match heap σ !! w_cb y with
  | Some b => (1 <=? weak_count b) && (weak_count b <=? SIZE_MAX)
  | None => false
  end.

(** ** Further members, on handle objects *)

(** [std::swap(a.ptr, b.ptr)] and [std::swap(a.cb, b.cb)] for two
    [shared_ptr] objects, which may be one and the same object. *)
Definition swap_s_ptr (a b : nat) : M unit :=
  let* x := read_shared a in
  let* y := read_shared b in
  write_shared a (SharedPtr (s_cb x) (s_ptr y)) ;;;
  let* y' := read_shared b in
  write_shared b (SharedPtr (s_cb y') (s_ptr x)).

Definition swap_s_cb (a b : nat) : M unit :=
  let* x := read_shared a in
  let* y := read_shared b in
  write_shared a (SharedPtr (s_cb y) (s_ptr x)) ;;;
  let* y' := read_shared b in
  write_shared b (SharedPtr (s_cb x) (s_ptr y')).

(** [void shared_ptr::swap(shared_ptr& r)]. *)
Definition shared_ptr_swap_at (this r : nat) : M unit :=
  swap_s_ptr this r ;;; swap_s_cb this r.

Definition swap_w_cb (a b : nat) : M unit :=
  let* x := read_weak a in
  let* y := read_weak b in
  write_weak a (WeakPtr (w_cb y) (w_ptr x)) ;;;
  let* y' := read_weak b in
  write_weak b (WeakPtr (w_cb x) (w_ptr y')).

Definition swap_w_ptr (a b : nat) : M unit :=
  let* x := read_weak a in
  let* y := read_weak b in
  write_weak a (WeakPtr (w_cb x) (w_ptr y)) ;;;
  let* y' := read_weak b in
  write_weak b (WeakPtr (w_cb y') (w_ptr x)).

(** [void weak_ptr::swap(weak_ptr& rhs)]. *)
Definition weak_ptr_swap_at (this rhs : nat) : M unit :=
  swap_w_cb this rhs ;;; swap_w_ptr this rhs.

(** [s_i.reset(p, d)] on the handle object [i]. *)
Definition shared_ptr_reset_raw_at (i : nat) (p : Z) (d : deleter) : M unit :=
  let* h := read_shared i in
  let* h' := shared_ptr_reset_raw h p d in
  write_shared i h'.

(** ** Properties carried along a computation *)

(** [m] keeps [P]: from a state with [P] it returns or throws in a state
    with [P]. *)
Definition keeps {A} (P : state -> Prop) (m : M A) : Prop :=
  forall σ, P σ ->
    match m σ with
    | Ok _ σ' => P σ'
    | Throw _ σ' => P σ'
    | Undefined => True
    end.





(** The payload destructions logged at [bl] number [n]. *)
Definition destroyed_is (bl : Z) (n : nat) (σ : state) : Prop :=
  destroyed bl (events σ) = n.

(** Statements that involve weak pointers only, or create one. *)
Definition is_weak_stmt (o : op) : bool :=
  match o with
  | OpWeak _ | OpWeakCopy _ | OpWeakMove _ | OpWeakAssignCopy _ _
  | OpWeakAssignMove _ _ | OpWeakDestroy _ => true
  | _ => false
  end.

(** * Proofs *)

(** ** Arithmetic of [size_t] *)

Lemma size_t_id z : 0 <= z <= SIZE_MAX -> size_t z = z.
Proof. unfold size_t, SIZE_MAX. intros. apply Z.mod_small. lia. Qed.

Lemma size_t_pred_zero : size_t (0 - 1) = SIZE_MAX.
Proof. reflexivity. Qed.

Lemma size_t_succ_pred z : 0 <= z <= SIZE_MAX -> size_t (size_t (z + 1) - 1) = z.
Proof.
  unfold size_t, SIZE_MAX. intros Hz.
  destruct (Z.eq_dec z (2 ^ 64 - 1)) as [-> | Hne].
  - reflexivity.
  - rewrite (Z.mod_small (z + 1)) by lia. replace (z + 1 - 1) with z by lia.
    apply Z.mod_small. lia.
Qed.

Lemma with_ref_back b n : with_ref (with_ref b n) (ref_count b) = b.
Proof. destruct b; reflexivity. Qed.

Lemma with_weak_back b n : with_weak (with_weak b n) (weak_count b) = b.
Proof. destruct b; reflexivity. Qed.

(** ** The primitives on an explicit state *)

Ltac run_m :=
  unfold operator_delete;
  unfold bind, ret, throw, try_catch, log, load, store, emplace;
  unfold set_heap, set_events, set_plan, set_shared, set_weak; simpl.

Ltac crunch :=
  repeat first
    [ progress simpl
    | rewrite lookup_insert_eq
    | match goal with H : _ !! _ = Some _ |- _ => rewrite H end ].

Section Primitives.
Variables (h : gmap Z control_block) (e : list event) (p : list bool)
          (s : list shared_ptr) (w : list weak_ptr).
Variables (c : Z) (b : control_block).
Hypothesis Hc : h !! c = Some b.

Lemma add_ref_eq :
  add_ref c (State h e p s w) =
  Ok tt (State (<[c := with_ref b (size_t (ref_count b + 1))]> h) e p s w).
Proof. unfold add_ref. run_m. crunch. reflexivity. Qed.

Lemma add_weak_eq :
  add_weak c (State h e p s w) =
  Ok tt (State (<[c := with_weak b (size_t (weak_count b + 1))]> h) e p s w).
Proof. unfold add_weak. run_m. crunch. reflexivity. Qed.

Lemma release_weak_eq :
  release_weak c (State h e p s w) =
  Ok tt (State (<[c := with_weak b (size_t (weak_count b - 1))]> h) e p s w).
Proof. unfold release_weak. run_m. crunch. reflexivity. Qed.

Lemma release_ref_eq :
  release_ref c (State h e p s w) =
  Ok tt (State (<[c := with_ref b (size_t (ref_count b - 1))]> h)
           (if size_t (ref_count b - 1) =? 0
            then e ++ EvDeleteObject c :: payload_events c (variant b) else e)
           p s w).
Proof.
  unfold release_ref, delete_object. run_m. crunch.
  destruct (size_t (ref_count b - 1) =? 0); [|reflexivity].
  unfold with_ref. destruct (variant b); crunch; rewrite <- ?app_assoc; reflexivity.
Qed.

Lemma cb_use_count_eq :
  cb_use_count c (State h e p s w) = Ok (ref_count b) (State h e p s w).
Proof. unfold cb_use_count. run_m. crunch. reflexivity. Qed.

Lemma cb_weak_use_count_eq :
  cb_weak_use_count c (State h e p s w) = Ok (weak_count b) (State h e p s w).
Proof. unfold cb_weak_use_count. run_m. crunch. reflexivity. Qed.

Lemma delete_cb_eq :
  delete_cb c (State h e p s w) = Ok tt (State (delete c h) (e ++ [EvDelete c]) p s w).
Proof. unfold delete_cb. run_m. crunch. reflexivity. Qed.
End Primitives.

(** ** The member functions on an explicit state *)

Section Members.
Variables (h : gmap Z control_block) (e : list event) (p : list bool)
          (s : list shared_ptr) (w : list weak_ptr).
Variables (c : Z) (b : control_block).
Hypothesis Hnull : c <> nullptr.
Hypothesis Hc : h !! c = Some b.

Let Hneq : (c =? nullptr) = false.
Proof. apply Z.eqb_neq, Hnull. Qed.

Lemma shared_ptr_copy_eq q :
  shared_ptr_copy (SharedPtr c q) (State h e p s w) =
  Ok (SharedPtr c q) (State (<[c := with_ref b (size_t (ref_count b + 1))]> h) e p s w).
Proof.
  unfold shared_ptr_copy, bind. simpl. rewrite Hneq, (add_ref_eq _ _ _ _ _ _ _ Hc). reflexivity.
Qed.

Lemma shared_ptr_alias_eq q q' :
  shared_ptr_alias (SharedPtr c q) q' (State h e p s w) =
  Ok (SharedPtr c q') (State (<[c := with_ref b (size_t (ref_count b + 1))]> h) e p s w).
Proof.
  unfold shared_ptr_alias, bind. simpl. rewrite Hneq, (add_ref_eq _ _ _ _ _ _ _ Hc). reflexivity.
Qed.

Lemma shared_ptr_from_weak_eq q :
  shared_ptr_from_weak (WeakPtr c q) (State h e p s w) =
  Ok (SharedPtr c q) (State (<[c := with_ref b (size_t (ref_count b + 1))]> h) e p s w).
Proof.
  unfold shared_ptr_from_weak, bind. simpl. rewrite Hneq, (add_ref_eq _ _ _ _ _ _ _ Hc). reflexivity.
Qed.

Lemma shared_ptr_use_count_eq q :
  shared_ptr_use_count (SharedPtr c q) (State h e p s w) = Ok (ref_count b) (State h e p s w).
Proof. unfold shared_ptr_use_count. simpl. rewrite Hneq. apply cb_use_count_eq, Hc. Qed.

Lemma shared_ptr_dtor_eq q :
  shared_ptr_dtor (SharedPtr c q) (State h e p s w) =
  Ok tt (State (heap_after_release_ref c b h) (e ++ events_of_release_ref c b) p s w).
Proof.
  unfold shared_ptr_dtor, heap_after_release_ref, events_of_release_ref, bind.
  simpl. rewrite Hneq, (release_ref_eq _ _ _ _ _ _ _ Hc).
  erewrite cb_use_count_eq by apply lookup_insert_eq. simpl.
  destruct (size_t (ref_count b - 1) =? 0); simpl.
  - erewrite cb_weak_use_count_eq by apply lookup_insert_eq. simpl.
    destruct (weak_count b =? 0); simpl.
    + erewrite delete_cb_eq by apply lookup_insert_eq.
      rewrite delete_insert_eq, <- app_assoc. reflexivity.
    + unfold ret. rewrite app_nil_r. reflexivity.
  - unfold ret. rewrite app_nil_r. reflexivity.
Qed.

Lemma weak_ptr_copy_eq q :
  weak_ptr_copy (WeakPtr c q) (State h e p s w) =
  Ok (WeakPtr c q) (State (<[c := with_weak b (size_t (weak_count b + 1))]> h) e p s w).
Proof.
  unfold weak_ptr_copy, bind. simpl. rewrite Hneq, (add_weak_eq _ _ _ _ _ _ _ Hc). reflexivity.
Qed.

Lemma weak_ptr_from_shared_eq q :
  weak_ptr_from_shared (SharedPtr c q) (State h e p s w) =
  Ok (WeakPtr c q) (State (<[c := with_weak b (size_t (weak_count b + 1))]> h) e p s w).
Proof.
  unfold weak_ptr_from_shared, bind. simpl. rewrite Hneq, (add_weak_eq _ _ _ _ _ _ _ Hc). reflexivity.
Qed.

Lemma weak_ptr_use_count_eq q :
  weak_ptr_use_count (WeakPtr c q) (State h e p s w) = Ok (ref_count b) (State h e p s w).
Proof. unfold weak_ptr_use_count. simpl. rewrite Hneq. apply cb_use_count_eq, Hc. Qed.

Lemma weak_ptr_expired_eq q :
  weak_ptr_expired (WeakPtr c q) (State h e p s w) =
  Ok (ref_count b =? 0) (State h e p s w).
Proof. unfold weak_ptr_expired, bind. rewrite weak_ptr_use_count_eq. reflexivity. Qed.

Lemma weak_ptr_lock_eq q :
  weak_ptr_lock (WeakPtr c q) (State h e p s w) =
  if ref_count b =? 0 then Ok shared_ptr_default (State h e p s w)
  else Ok (SharedPtr c q)
         (State (<[c := with_ref b (size_t (ref_count b + 1))]> h) e p s w).
Proof.
  unfold weak_ptr_lock, bind. rewrite weak_ptr_expired_eq.
  destruct (ref_count b =? 0); simpl; [reflexivity | apply shared_ptr_from_weak_eq].
Qed.

Lemma weak_ptr_dtor_eq q :
  weak_ptr_dtor (WeakPtr c q) (State h e p s w) =
  Ok tt (State (heap_after_release_weak c b h) (e ++ events_of_release_weak c b) p s w).
Proof.
  unfold weak_ptr_dtor, heap_after_release_weak, events_of_release_weak, bind.
  simpl. rewrite Hneq, (release_weak_eq _ _ _ _ _ _ _ Hc).
  erewrite cb_use_count_eq by apply lookup_insert_eq. simpl.
  destruct (ref_count b =? 0); simpl.
  - erewrite cb_weak_use_count_eq by apply lookup_insert_eq. simpl.
    destruct (size_t (weak_count b - 1) =? 0); simpl.
    + erewrite delete_cb_eq by apply lookup_insert_eq.
      rewrite delete_insert_eq. reflexivity.
    + unfold ret. rewrite app_nil_r. reflexivity.
  - unfold ret. rewrite app_nil_r. reflexivity.
Qed.
End Members.

(** Handles without a control block touch nothing. *)
Lemma shared_ptr_copy_null q σ :
  shared_ptr_copy (SharedPtr nullptr q) σ = Ok (SharedPtr nullptr q) σ.
Proof. reflexivity. Qed.

Lemma shared_ptr_alias_null q q' σ :
  shared_ptr_alias (SharedPtr nullptr q) q' σ = Ok (SharedPtr nullptr q') σ.
Proof. reflexivity. Qed.

Lemma shared_ptr_from_weak_null q σ :
  shared_ptr_from_weak (WeakPtr nullptr q) σ = Ok (SharedPtr nullptr q) σ.
Proof. reflexivity. Qed.

Lemma shared_ptr_dtor_null q σ : shared_ptr_dtor (SharedPtr nullptr q) σ = Ok tt σ.
Proof. reflexivity. Qed.

Lemma shared_ptr_use_count_null q σ : shared_ptr_use_count (SharedPtr nullptr q) σ = Ok 0 σ.
Proof. reflexivity. Qed.

Lemma weak_ptr_copy_null q σ : weak_ptr_copy (WeakPtr nullptr q) σ = Ok (WeakPtr nullptr q) σ.
Proof. reflexivity. Qed.

Lemma weak_ptr_from_shared_null q σ :
  weak_ptr_from_shared (SharedPtr nullptr q) σ = Ok (WeakPtr nullptr q) σ.
Proof. reflexivity. Qed.

Lemma weak_ptr_dtor_null q σ : weak_ptr_dtor (WeakPtr nullptr q) σ = Ok tt σ.
Proof. reflexivity. Qed.

Lemma weak_ptr_expired_null q σ : weak_ptr_expired (WeakPtr nullptr q) σ = Ok true σ.
Proof. reflexivity. Qed.

Lemma weak_ptr_lock_null q σ : weak_ptr_lock (WeakPtr nullptr q) σ = Ok shared_ptr_default σ.
Proof. reflexivity. Qed.

(** ** Counting handles and events *)

Section Counting.
Context {A : Type} (f : A -> Z) (bl : Z).

Lemma count_cb_nonneg l : 0 <= count_cb f bl l.
Proof. induction l as [|x l IH]; simpl; [lia|]. destruct (f x =? bl); lia. Qed.

Lemma count_cb_le_length l : count_cb f bl l <= Z.of_nat (length l).
Proof. induction l as [|x l IH]; simpl; [lia|]. destruct (f x =? bl); lia. Qed.

Lemma count_cb_app l l' : count_cb f bl (l ++ l') = count_cb f bl l + count_cb f bl l'.
Proof. induction l as [|x l IH]; simpl; [lia|]. rewrite IH. lia. Qed.

Lemma count_cb_delete l i x :
  l !! i = Some x ->
  count_cb f bl l = (if f x =? bl then 1 else 0) + count_cb f bl (delete i l).
Proof.
  revert i. induction l as [|y l IH]; intros [|i] Hi; simpl in *; try discriminate.
  - injection Hi as ->. reflexivity.
  - rewrite (IH i Hi). lia.
Qed.

Lemma count_cb_insert l i x y :
  l !! i = Some x ->
  count_cb f bl (<[i := y]> l) =
  count_cb f bl l - (if f x =? bl then 1 else 0) + (if f y =? bl then 1 else 0).
Proof.
  revert i. induction l as [|z l IH]; intros [|i] Hi; simpl in *; try discriminate.
  - injection Hi as ->. destruct (f x =? bl), (f y =? bl); lia.
  - rewrite (IH i Hi). destruct (f x =? bl), (f y =? bl), (f z =? bl); lia.
Qed.

Lemma count_cb_pos l i x : l !! i = Some x -> f x = bl -> 0 < count_cb f bl l.
Proof.
  intros Hi Hx. rewrite (count_cb_delete l i x Hi).
  pose proof (count_cb_nonneg (delete i l)).
  rewrite Hx, Z.eqb_refl. lia.
Qed.
End Counting.

Lemma destroyed_app bl l l' : destroyed bl (l ++ l') = (destroyed bl l + destroyed bl l')%nat.
Proof. unfold destroyed. rewrite List.filter_app, length_app. reflexivity. Qed.

Lemma freed_app bl l l' : freed bl (l ++ l') = (freed bl l + freed bl l')%nat.
Proof. unfold freed. rewrite List.filter_app, length_app. reflexivity. Qed.

Lemma destroyed_payload_events bl c v : destroyed bl (payload_events c v) = 0%nat.
Proof. destruct v; reflexivity. Qed.

Lemma freed_payload_events bl c v : freed bl (payload_events c v) = 0%nat.
Proof. destruct v; reflexivity. Qed.

Lemma destroyed_release_ref bl c b :
  destroyed bl (events_of_release_ref c b) =
  if (size_t (ref_count b - 1) =? 0) && (c =? bl) then 1%nat else 0%nat.
Proof.
  unfold events_of_release_ref. rewrite destroyed_app.
  destruct (size_t (ref_count b - 1) =? 0); simpl.
  - change (EvDeleteObject c :: payload_events c (variant b))
      with ([EvDeleteObject c] ++ payload_events c (variant b)).
    rewrite destroyed_app, destroyed_payload_events.
    unfold destroyed. simpl. destruct (c =? bl), (weak_count b =? 0); reflexivity.
  - reflexivity.
Qed.

Lemma freed_release_ref bl c b :
  freed bl (events_of_release_ref c b) =
  if (size_t (ref_count b - 1) =? 0) && (weak_count b =? 0) && (c =? bl)
  then 1%nat else 0%nat.
Proof.
  unfold events_of_release_ref. rewrite freed_app.
  destruct (size_t (ref_count b - 1) =? 0); simpl.
  - change (EvDeleteObject c :: payload_events c (variant b))
      with ([EvDeleteObject c] ++ payload_events c (variant b)).
    rewrite freed_app, freed_payload_events.
    unfold freed. simpl. destruct (weak_count b =? 0); simpl; [|reflexivity].
    destruct (c =? bl); reflexivity.
  - reflexivity.
Qed.

Lemma destroyed_release_weak bl c b : destroyed bl (events_of_release_weak c b) = 0%nat.
Proof.
  unfold events_of_release_weak.
  destruct ((ref_count b =? 0) && (size_t (weak_count b - 1) =? 0)); reflexivity.
Qed.

Lemma freed_release_weak bl c b :
  freed bl (events_of_release_weak c b) =
  if (ref_count b =? 0) && (size_t (weak_count b - 1) =? 0) && (c =? bl)
  then 1%nat else 0%nat.
Proof.
  unfold events_of_release_weak.
  destruct ((ref_count b =? 0) && (size_t (weak_count b - 1) =? 0)); simpl; [|reflexivity].
  unfold freed. simpl. destruct (c =? bl); reflexivity.
Qed.

(** ** The invariant under one reference more or less *)

Lemma max_handles_lt : max_handles < SIZE_MAX.
Proof. reflexivity. Qed.

Ltac eqb_cases :=
  repeat match goal with
  | |- context [?x =? ?y] => destruct (Z.eqb_spec x y)
  | H : context [?x =? ?y] |- _ => destruct (Z.eqb_spec x y)
  end.

Section Invariant.
Variable track : option (Z * nat * nat).
Variables (h : gmap Z control_block) (e : list event)
          (S : list shared_ptr) (W : list weak_ptr).

Lemma inv_perm S' W' :
  (forall bl, bl <> nullptr -> owners bl S = owners bl S') ->
  (forall bl, bl <> nullptr -> watchers bl W = watchers bl W') ->
  inv track h e S W -> inv track h e S' W'.
Proof.
  intros HS HW [Hcons Htr]. split; [|exact Htr].
  intros bl Hbl. rewrite <- (HS bl Hbl), <- (HW bl Hbl). apply Hcons, Hbl.
Qed.

Lemma inv_gain_strong_null q :
  inv track h e S W -> inv track h e (SharedPtr nullptr q :: S) W.
Proof.
  apply inv_perm; [|reflexivity].
  intros bl Hbl. unfold owners. cbn [count_cb s_cb]. destruct (Z.eqb_spec nullptr bl); [congruence|lia].
Qed.

Lemma inv_gain_weak_null q :
  inv track h e S W -> inv track h e S (WeakPtr nullptr q :: W).
Proof.
  apply inv_perm; [reflexivity|].
  intros bl Hbl. unfold watchers. cbn [count_cb w_cb]. destruct (Z.eqb_spec nullptr bl); [congruence|lia].
Qed.

Variables (c : Z) (b : control_block).
Hypothesis Hnull : c <> nullptr.
Hypothesis Hc : h !! c = Some b.

Lemma inv_gain_strong q :
  inv track h e S W ->
  (track <> None -> ref_count b <> 0) ->
  owners c S < SIZE_MAX ->
  inv track (<[c := with_ref b (size_t (ref_count b + 1))]> h) e (SharedPtr c q :: S) W.
Proof.
  intros [Hcons Htr] Hlive Hroom.
  pose proof (Hcons c Hnull) as Hcc. rewrite Hc in Hcc.
  destruct Hcc as (Hr & Hw & Hpos & Hro & Hwo).
  pose proof (count_cb_nonneg s_cb c S) as Hnn. fold (owners c S) in Hnn.
  assert (Hsz : size_t (ref_count b + 1) = ref_count b + 1) by (apply size_t_id; lia).
  split.
  - intros bl Hbl. specialize (Hcons bl Hbl). unfold owners in *. cbn [count_cb s_cb].
    destruct (decide (bl = c)) as [-> | Hne].
    + rewrite lookup_insert_eq. cbn [with_ref with_weak ref_count weak_count]. rewrite Z.eqb_refl, Hsz. lia.
    + rewrite lookup_insert_ne by congruence.
      destruct (Z.eqb_spec c bl); [congruence|]. exact Hcons.
  - destruct track as [[[bl0 d0] f0]|]; [|exact I].
    unfold tracked in *. destruct (decide (bl0 = c)) as [-> | Hne].
    + rewrite lookup_insert_eq. rewrite Hc in Htr. simpl. rewrite Hsz.
      assert (ref_count b <> 0) by (apply Hlive; discriminate).
      eqb_cases; try lia; exact Htr.
    + rewrite lookup_insert_ne by congruence. exact Htr.
Qed.

Lemma inv_gain_weak q :
  inv track h e S W ->
  watchers c W < SIZE_MAX ->
  inv track (<[c := with_weak b (size_t (weak_count b + 1))]> h) e S (WeakPtr c q :: W).
Proof.
  intros [Hcons Htr] Hroom.
  pose proof (Hcons c Hnull) as Hcc. rewrite Hc in Hcc.
  destruct Hcc as (Hr & Hw & Hpos & Hro & Hwo).
  pose proof (count_cb_nonneg w_cb c W) as Hnn. fold (watchers c W) in Hnn.
  assert (Hsz : size_t (weak_count b + 1) = weak_count b + 1) by (apply size_t_id; lia).
  split.
  - intros bl Hbl. specialize (Hcons bl Hbl). unfold watchers in *. cbn [count_cb w_cb].
    destruct (decide (bl = c)) as [-> | Hne].
    + rewrite lookup_insert_eq. cbn [with_ref with_weak ref_count weak_count]. rewrite Z.eqb_refl, Hsz. lia.
    + rewrite lookup_insert_ne by congruence.
      destruct (Z.eqb_spec c bl); [congruence|]. exact Hcons.
  - destruct track as [[[bl0 d0] f0]|]; [|exact I].
    unfold tracked in *. destruct (decide (bl0 = c)) as [-> | Hne].
    + rewrite lookup_insert_eq. rewrite Hc in Htr. exact Htr.
    + rewrite lookup_insert_ne by congruence. exact Htr.
Qed.

Lemma inv_lose_strong q :
  inv track h e (SharedPtr c q :: S) W ->
  inv track (heap_after_release_ref c b h) (e ++ events_of_release_ref c b) S W.
Proof.
  intros [Hcons Htr].
  pose proof (Hcons c Hnull) as Hcc. rewrite Hc in Hcc.
  unfold owners in Hcc. cbn [count_cb s_cb] in Hcc. rewrite Z.eqb_refl in Hcc.
  fold (owners c S) in Hcc. destruct Hcc as (Hr & Hw & Hpos & Hro & Hwo).
  pose proof (count_cb_nonneg s_cb c S) as Hnn. fold (owners c S) in Hnn.
  pose proof (count_cb_nonneg w_cb c W) as Hnw. fold (watchers c W) in Hnw.
  assert (Hsz : size_t (ref_count b - 1) = owners c S) by (rewrite size_t_id; lia).
  split.
  - intros bl Hbl. specialize (Hcons bl Hbl). unfold heap_after_release_ref.
    rewrite Hsz. unfold owners in Hcons. cbn [count_cb s_cb] in Hcons. fold (owners bl S) in Hcons.
    destruct (decide (bl = c)) as [-> | Hne].
    + rewrite Hc in Hcons.
      destruct (Z.eqb_spec (owners c S) 0), (Z.eqb_spec (weak_count b) 0); cbn [andb];
        rewrite ?lookup_delete_eq, ?lookup_insert_eq; cbn [andb with_ref with_weak ref_count weak_count]; lia.
    + destruct (Z.eqb_spec c bl); [congruence|].
      destruct ((owners c S =? 0) && (weak_count b =? 0));
        rewrite ?lookup_delete_ne, ?lookup_insert_ne by congruence; exact Hcons.
  - destruct track as [[[bl0 d0] f0]|]; [|exact I].
    unfold tracked in *.
    rewrite destroyed_app, freed_app, destroyed_release_ref, freed_release_ref.
    unfold heap_after_release_ref. rewrite Hsz.
    destruct (decide (bl0 = c)) as [-> | Hne].
    + rewrite Hc in Htr. rewrite Z.eqb_refl.
      destruct (Z.eqb_spec (owners c S) 0), (Z.eqb_spec (weak_count b) 0); cbn [andb];
        rewrite ?lookup_delete_eq, ?lookup_insert_eq; cbn [andb with_ref with_weak ref_count weak_count];
        eqb_cases; lia.
    + destruct (Z.eqb_spec c bl0); [congruence|]. rewrite !andb_false_r.
      destruct ((owners c S =? 0) && (weak_count b =? 0));
        rewrite ?lookup_delete_ne, ?lookup_insert_ne by congruence;
        destruct (h !! bl0); lia.
Qed.

Lemma inv_lose_weak q :
  inv track h e S (WeakPtr c q :: W) ->
  inv track (heap_after_release_weak c b h) (e ++ events_of_release_weak c b) S W.
Proof.
  intros [Hcons Htr].
  pose proof (Hcons c Hnull) as Hcc. rewrite Hc in Hcc.
  unfold watchers in Hcc. cbn [count_cb w_cb] in Hcc. rewrite Z.eqb_refl in Hcc.
  fold (watchers c W) in Hcc. destruct Hcc as (Hr & Hw & Hpos & Hro & Hwo).
  pose proof (count_cb_nonneg s_cb c S) as Hnn. fold (owners c S) in Hnn.
  pose proof (count_cb_nonneg w_cb c W) as Hnw. fold (watchers c W) in Hnw.
  assert (Hsz : size_t (weak_count b - 1) = watchers c W) by (rewrite size_t_id; lia).
  split.
  - intros bl Hbl. specialize (Hcons bl Hbl). unfold heap_after_release_weak.
    rewrite Hsz. unfold watchers in Hcons. cbn [count_cb w_cb] in Hcons. fold (watchers bl W) in Hcons.
    destruct (decide (bl = c)) as [-> | Hne].
    + rewrite Hc in Hcons.
      destruct (Z.eqb_spec (ref_count b) 0), (Z.eqb_spec (watchers c W) 0); cbn [andb];
        rewrite ?lookup_delete_eq, ?lookup_insert_eq; cbn [andb with_ref with_weak ref_count weak_count]; lia.
    + destruct (Z.eqb_spec c bl); [congruence|].
      destruct ((ref_count b =? 0) && (watchers c W =? 0));
        rewrite ?lookup_delete_ne, ?lookup_insert_ne by congruence; exact Hcons.
  - destruct track as [[[bl0 d0] f0]|]; [|exact I].
    unfold tracked in *.
    rewrite destroyed_app, freed_app, destroyed_release_weak, freed_release_weak.
    unfold heap_after_release_weak. rewrite Hsz.
    destruct (decide (bl0 = c)) as [-> | Hne].
    + rewrite Hc in Htr. rewrite Z.eqb_refl.
      destruct (Z.eqb_spec (ref_count b) 0), (Z.eqb_spec (watchers c W) 0); cbn [andb];
        rewrite ?lookup_delete_eq, ?lookup_insert_eq; cbn [andb with_ref with_weak ref_count weak_count];
        eqb_cases; lia.
    + destruct (Z.eqb_spec c bl0); [congruence|]. rewrite !andb_false_r.
      destruct ((ref_count b =? 0) && (watchers c W =? 0));
        rewrite ?lookup_delete_ne, ?lookup_insert_ne by congruence;
        destruct (h !! bl0); lia.
Qed.
End Invariant.

(** ** Rearranging the handles *)

Section Rearranging.
Variable track : option (Z * nat * nat).
Variables (h : gmap Z control_block) (e : list event)
          (S : list shared_ptr) (W : list weak_ptr).

Lemma inv_push_shared x : inv track h e (x :: S) W -> inv track h e (S ++ [x]) W.
Proof.
  apply inv_perm; [|reflexivity]. intros bl _. unfold owners.
  rewrite count_cb_app. cbn [count_cb]. lia.
Qed.

Lemma inv_push_weak x : inv track h e S (x :: W) -> inv track h e S (W ++ [x]).
Proof.
  apply inv_perm; [reflexivity|]. intros bl _. unfold watchers.
  rewrite count_cb_app. cbn [count_cb]. lia.
Qed.

Lemma inv_pick_shared i x :
  S !! i = Some x -> inv track h e S W -> inv track h e (x :: delete i S) W.
Proof.
  intros Hi. apply inv_perm; [|reflexivity]. intros bl _. unfold owners.
  rewrite (count_cb_delete s_cb bl S i x Hi). reflexivity.
Qed.

Lemma inv_pick_weak j x :
  W !! j = Some x -> inv track h e S W -> inv track h e S (x :: delete j W).
Proof.
  intros Hj. apply inv_perm; [reflexivity|]. intros bl _. unfold watchers.
  rewrite (count_cb_delete w_cb bl W j x Hj). reflexivity.
Qed.

Lemma inv_replace_shared i x y :
  S !! i = Some x -> inv track h e (y :: S) W -> inv track h e (x :: <[i := y]> S) W.
Proof.
  intros Hi. apply inv_perm; [|reflexivity]. intros bl _. unfold owners.
  cbn [count_cb]. rewrite (count_cb_insert s_cb bl S i x y Hi). lia.
Qed.

Lemma inv_replace_weak j x y :
  W !! j = Some x -> inv track h e S (y :: W) -> inv track h e S (x :: <[j := y]> W).
Proof.
  intros Hj. apply inv_perm; [reflexivity|]. intros bl _. unfold watchers.
  cbn [count_cb]. rewrite (count_cb_insert w_cb bl W j x y Hj). lia.
Qed.

Lemma inv_drop_shared_null q :
  inv track h e (SharedPtr nullptr q :: S) W -> inv track h e S W.
Proof.
  apply inv_perm; [|reflexivity]. intros bl Hbl. unfold owners. cbn [count_cb s_cb].
  destruct (Z.eqb_spec nullptr bl); [congruence|lia].
Qed.

Lemma inv_drop_weak_null q :
  inv track h e S (WeakPtr nullptr q :: W) -> inv track h e S W.
Proof.
  apply inv_perm; [reflexivity|]. intros bl Hbl. unfold watchers. cbn [count_cb w_cb].
  destruct (Z.eqb_spec nullptr bl); [congruence|lia].
Qed.

(** A handle that refers to a block keeps it allocated. *)
Lemma inv_shared_alive c q :
  inv track h e (SharedPtr c q :: S) W -> c <> nullptr ->
  exists b, h !! c = Some b /\ ref_count b <> 0.
Proof.
  intros [Hcons _] Hc. specialize (Hcons c Hc).
  unfold owners in Hcons. cbn [count_cb s_cb] in Hcons. rewrite Z.eqb_refl in Hcons.
  pose proof (count_cb_nonneg s_cb c S).
  destruct (h !! c) as [b|]; [exists b; split; [reflexivity|lia] | lia].
Qed.

Lemma inv_weak_alive c q :
  inv track h e S (WeakPtr c q :: W) -> c <> nullptr ->
  exists b, h !! c = Some b.
Proof.
  intros [Hcons _] Hc. specialize (Hcons c Hc).
  unfold watchers in Hcons. cbn [count_cb w_cb] in Hcons. rewrite Z.eqb_refl in Hcons.
  pose proof (count_cb_nonneg w_cb c W).
  destruct (h !! c) as [b|]; [exists b; reflexivity | lia].
Qed.

Lemma inv_owners_room c :
  Z.of_nat (length S) <= max_handles -> owners c S < SIZE_MAX.
Proof.
  intros Hlen. pose proof (count_cb_le_length s_cb c S). pose proof max_handles_lt.
  unfold owners. lia.
Qed.

Lemma inv_watchers_room c :
  Z.of_nat (length W) <= max_handles -> watchers c W < SIZE_MAX.
Proof.
  intros Hlen. pose proof (count_cb_le_length w_cb c W). pose proof max_handles_lt.
  unfold watchers. lia.
Qed.
End Rearranging.

(** A new block at an address that was not in use, with its first owner. *)
Lemma inv_new_block h e e' S W bl q v :
  inv None h e S W -> bl <> nullptr -> h !! bl = None ->
  inv None (<[bl := ControlBlock 1 0 v]> h) e' (SharedPtr bl q :: S) W.
Proof.
  intros [Hcons _] Hbl Hfree. split; [|exact I].
  intros a Ha. pose proof (Hcons a Ha) as Haa. unfold owners in *. cbn [count_cb s_cb].
  destruct (decide (a = bl)) as [-> | Hne].
  - rewrite lookup_insert_eq. rewrite Hfree in Haa. rewrite Z.eqb_refl.
    cbn [ref_count weak_count]. unfold SIZE_MAX. lia.
  - rewrite lookup_insert_ne by congruence.
    destruct (Z.eqb_spec bl a); [congruence|]. exact Haa.
Qed.

Lemma inv_events_irrelevant h e e' S W : inv None h e S W -> inv None h e' S W.
Proof. intros [Hcons _]. split; [exact Hcons | exact I]. Qed.

Lemma fresh_addr_spec h : fresh_addr h <> nullptr /\ h !! fresh_addr h = None.
Proof.
  unfold fresh_addr. pose proof (is_fresh ({[nullptr]} ∪ dom h)) as Hf. split.
  - intros Heq. apply Hf. rewrite Heq. set_solver.
  - apply not_elem_of_dom. set_solver.
Qed.

(** ** Construction from a raw pointer and by [make_shared] *)

Lemma shared_ptr_from_raw_eq q d h e pl s w :
  shared_ptr_from_raw q d (State h e pl s w) =
  match pl with
  | false :: pl' => Throw bad_alloc (State h (e ++ [EvDeleter d q]) pl' s w)
  | _ =>
    Ok (SharedPtr (fresh_addr h) q)
       (State (<[fresh_addr h := ControlBlock 1 0 (control_block_ptr q d)]> h)
              (e ++ [EvNew (fresh_addr h)]) (tail pl) s w)
  end.
Proof.
  unfold shared_ptr_from_raw, new_control_block_ptr, operator_new. run_m.
  destruct pl as [|[] pl']; reflexivity.
Qed.

Lemma make_shared_eq A args h e pl s w :
  make_shared A args (State h e pl s w) =
  match pl with
  | false :: pl' => Throw bad_alloc (State h e pl' s w)
  | _ =>
    match ctor_throws A args with
    | Some x =>
      Throw x (State h (e ++ [EvNew (fresh_addr h); EvDelete (fresh_addr h)]) (tail pl) s w)
    | None =>
      Ok (SharedPtr (fresh_addr h) (data_addr (fresh_addr h)))
         (State (<[fresh_addr h := ControlBlock 1 0 control_block_obj]> h)
                (e ++ [EvNew (fresh_addr h); EvConstruct (data_addr (fresh_addr h)) args])
                (tail pl) s w)
    end
  end.
Proof.
  unfold make_shared, new_control_block_obj, operator_new.
  destruct (ctor_throws A args); run_m;
    destruct pl as [|[] pl']; simpl; rewrite <- ?app_assoc; reflexivity.
Qed.

(** ** Statements preserve the invariant *)

Lemma read_shared_eq h e pl S W i x :
  S !! i = Some x -> read_shared i (State h e pl S W) = Ok x (State h e pl S W).
Proof. intros Hi. unfold read_shared. simpl. rewrite Hi. reflexivity. Qed.

Lemma write_shared_eq h e pl S W i x y :
  S !! i = Some x ->
  write_shared i y (State h e pl S W) = Ok tt (State h e pl (<[i := y]> S) W).
Proof. intros Hi. unfold write_shared. simpl. rewrite Hi. reflexivity. Qed.

Lemma read_weak_eq h e pl S W j x :
  W !! j = Some x -> read_weak j (State h e pl S W) = Ok x (State h e pl S W).
Proof. intros Hj. unfold read_weak. simpl. rewrite Hj. reflexivity. Qed.

Lemma write_weak_eq h e pl S W j x y :
  W !! j = Some x ->
  write_weak j y (State h e pl S W) = Ok tt (State h e pl S (<[j := y]> W)).
Proof. intros Hj. unfold write_weak. simpl. rewrite Hj. reflexivity. Qed.

Lemma has_shared_lookup i σ : has_shared i σ = true -> exists x, shared σ !! i = Some x.
Proof.
  unfold has_shared. intros Hi. apply bool_decide_eq_true in Hi.
  apply lookup_lt_is_Some in Hi. destruct Hi as [x Hx]. exists x. exact Hx.
Qed.

Lemma has_weak_lookup j σ : has_weak j σ = true -> exists x, weak σ !! j = Some x.
Proof.
  unfold has_weak. intros Hj. apply bool_decide_eq_true in Hj.
  apply lookup_lt_is_Some in Hj. destruct Hj as [x Hx]. exists x. exact Hx.
Qed.

Ltac mstep := cbv beta iota zeta.

Ltac finish :=
  unfold preserved, push_shared, push_weak, drop_shared, drop_weak,
    set_shared, set_weak;
  lazymatch goal with
  | |- _ = None /\ _ => split; [reflexivity|]
  | |- _ => idtac
  end;
  unfold good; cbn [heap events plan shared weak];
  split; [|split; try assumption].

(** The member functions in terms of the invariant.  [S] and [W] are all
    the handles alive, including locals and temporaries; [S'] and [W'] are
    the handle objects stored in the state, which these functions ignore. *)
Section MemberSteps.
Variable track : option (Z * nat * nat).
Variables (h : gmap Z control_block) (e : list event) (pl : list bool)
          (S S' : list shared_ptr) (W W' : list weak_ptr).

Lemma shared_ptr_copy_step i x :
  inv track h e S W -> Z.of_nat (length S) <= max_handles -> S !! i = Some x ->
  exists h1,
    shared_ptr_copy x (State h e pl S' W') = Ok x (State h1 e pl S' W') /\
    inv track h1 e (x :: S) W.
Proof.
  intros Hinv Hlen Hi. destruct x as [c q].
  destruct (decide (c = nullptr)) as [-> | Hc].
  - exists h. split; [reflexivity | apply inv_gain_strong_null, Hinv].
  - destruct (inv_shared_alive track h e (delete i S) W c q) as (b & Hb & Hlive);
      [apply inv_pick_shared; assumption | assumption |].
    eexists. split; [apply (shared_ptr_copy_eq _ _ _ _ _ _ _ Hc Hb) |].
    apply inv_gain_strong; try assumption; [intros _; exact Hlive |].
    apply inv_owners_room, Hlen.
Qed.

Lemma shared_ptr_alias_step i x q' :
  inv track h e S W -> Z.of_nat (length S) <= max_handles -> S !! i = Some x ->
  exists h1,
    shared_ptr_alias x q' (State h e pl S' W') =
      Ok (SharedPtr (s_cb x) q') (State h1 e pl S' W') /\
    inv track h1 e (SharedPtr (s_cb x) q' :: S) W.
Proof.
  intros Hinv Hlen Hi. destruct x as [c q]. cbn [s_cb].
  destruct (decide (c = nullptr)) as [-> | Hc].
  - exists h. split; [reflexivity | apply inv_gain_strong_null, Hinv].
  - destruct (inv_shared_alive track h e (delete i S) W c q) as (b & Hb & Hlive);
      [apply inv_pick_shared; assumption | assumption |].
    eexists. split; [apply (shared_ptr_alias_eq _ _ _ _ _ _ _ Hc Hb) |].
    apply inv_gain_strong; try assumption; [intros _; exact Hlive |].
    apply inv_owners_room, Hlen.
Qed.

Lemma shared_ptr_from_weak_step j x :
  track = None ->
  inv track h e S W -> Z.of_nat (length S) <= max_handles -> W !! j = Some x ->
  exists h1,
    shared_ptr_from_weak x (State h e pl S' W') =
      Ok (SharedPtr (w_cb x) (w_ptr x)) (State h1 e pl S' W') /\
    inv track h1 e (SharedPtr (w_cb x) (w_ptr x) :: S) W.
Proof.
  intros Htrack Hinv Hlen Hj. destruct x as [c q]. cbn [w_cb w_ptr].
  destruct (decide (c = nullptr)) as [-> | Hc].
  - exists h. split; [reflexivity | apply inv_gain_strong_null, Hinv].
  - destruct (inv_weak_alive track h e S (delete j W) c q) as (b & Hb);
      [apply inv_pick_weak; assumption | assumption |].
    eexists. split; [apply (shared_ptr_from_weak_eq _ _ _ _ _ _ _ Hc Hb) |].
    apply inv_gain_strong; try assumption; [intros Hne; contradiction |].
    apply inv_owners_room, Hlen.
Qed.

Lemma weak_ptr_lock_step j x :
  inv track h e S W -> Z.of_nat (length S) <= max_handles -> W !! j = Some x ->
  exists n h1,
    weak_ptr_lock x (State h e pl S' W') = Ok n (State h1 e pl S' W') /\
    inv track h1 e (n :: S) W.
Proof.
  intros Hinv Hlen Hj. destruct x as [c q].
  destruct (decide (c = nullptr)) as [-> | Hc].
  - exists shared_ptr_default, h. split; [reflexivity | apply inv_gain_strong_null, Hinv].
  - destruct (inv_weak_alive track h e S (delete j W) c q) as (b & Hb);
      [apply inv_pick_weak; assumption | assumption |].
    rewrite (weak_ptr_lock_eq _ _ _ _ _ _ _ Hc Hb).
    destruct (Z.eqb_spec (ref_count b) 0) as [Hz | Hnz].
    + exists shared_ptr_default, h.
      split; [reflexivity | apply inv_gain_strong_null, Hinv].
    + eexists _, _. split; [reflexivity |].
      apply inv_gain_strong; try assumption; [intros _; exact Hnz |].
      apply inv_owners_room, Hlen.
Qed.

Lemma shared_ptr_dtor_step x :
  inv track h e (x :: S) W ->
  exists h1 e1,
    shared_ptr_dtor x (State h e pl S' W') = Ok tt (State h1 e1 pl S' W') /\
    inv track h1 e1 S W.
Proof.
  intros Hinv. destruct x as [c q].
  destruct (decide (c = nullptr)) as [-> | Hc].
  - exists h, e. split; [reflexivity | eapply inv_drop_shared_null, Hinv].
  - destruct (inv_shared_alive _ _ _ _ _ _ _ Hinv Hc) as (b & Hb & _).
    eexists _, _. split; [apply (shared_ptr_dtor_eq _ _ _ _ _ _ _ Hc Hb) |].
    eapply inv_lose_strong; eassumption.
Qed.

Lemma weak_ptr_copy_step j x :
  inv track h e S W -> Z.of_nat (length W) <= max_handles -> W !! j = Some x ->
  exists h1,
    weak_ptr_copy x (State h e pl S' W') = Ok x (State h1 e pl S' W') /\
    inv track h1 e S (x :: W).
Proof.
  intros Hinv Hlen Hj. destruct x as [c q].
  destruct (decide (c = nullptr)) as [-> | Hc].
  - exists h. split; [reflexivity | apply inv_gain_weak_null, Hinv].
  - destruct (inv_weak_alive track h e S (delete j W) c q) as (b & Hb);
      [apply inv_pick_weak; assumption | assumption |].
    eexists. split; [apply (weak_ptr_copy_eq _ _ _ _ _ _ _ Hc Hb) |].
    apply inv_gain_weak; try assumption. apply inv_watchers_room, Hlen.
Qed.

Lemma weak_ptr_from_shared_step i x :
  inv track h e S W -> Z.of_nat (length W) <= max_handles -> S !! i = Some x ->
  exists h1,
    weak_ptr_from_shared x (State h e pl S' W') =
      Ok (WeakPtr (s_cb x) (s_ptr x)) (State h1 e pl S' W') /\
    inv track h1 e S (WeakPtr (s_cb x) (s_ptr x) :: W).
Proof.
  intros Hinv Hlen Hi. destruct x as [c q]. cbn [s_cb s_ptr].
  destruct (decide (c = nullptr)) as [-> | Hc].
  - exists h. split; [reflexivity | apply inv_gain_weak_null, Hinv].
  - destruct (inv_shared_alive track h e (delete i S) W c q) as (b & Hb & _);
      [apply inv_pick_shared; assumption | assumption |].
    eexists. split; [apply (weak_ptr_from_shared_eq _ _ _ _ _ _ _ Hc Hb) |].
    apply inv_gain_weak; try assumption. apply inv_watchers_room, Hlen.
Qed.

Lemma weak_ptr_dtor_step x :
  inv track h e S (x :: W) ->
  exists h1 e1,
    weak_ptr_dtor x (State h e pl S' W') = Ok tt (State h1 e1 pl S' W') /\
    inv track h1 e1 S W.
Proof.
  intros Hinv. destruct x as [c q].
  destruct (decide (c = nullptr)) as [-> | Hc].
  - exists h, e. split; [reflexivity | eapply inv_drop_weak_null, Hinv].
  - destruct (inv_weak_alive _ _ _ _ _ _ _ Hinv Hc) as (b & Hb).
    eexists _, _. split; [apply (weak_ptr_dtor_eq _ _ _ _ _ _ _ Hc Hb) |].
    eapply inv_lose_weak; eassumption.
Qed.
End MemberSteps.

Ltac get_shared Hi c q :=
  apply has_shared_lookup in Hi as [[c q] Hi]; cbn [shared] in Hi.
Ltac get_weak Hj c q :=
  apply has_weak_lookup in Hj as [[c q] Hj]; cbn [weak] in Hj.
Ltac get_room H :=
  apply Z.ltb_lt in H; cbn [shared weak] in H.

Section Statements.
Variable track : option (Z * nat * nat).
Variables (h : gmap Z control_block) (e : list event) (pl : list bool)
          (S : list shared_ptr) (W : list weak_ptr).
Hypothesis Hgood : good track (State h e pl S W).

Let Hinv : inv track h e S W := proj1 Hgood.
Let HlenS : Z.of_nat (length S) <= max_handles := proj1 (proj2 Hgood).
Let HlenW : Z.of_nat (length W) <= max_handles := proj2 (proj2 Hgood).

Lemma exec_OpCopy i :
  applicable (OpCopy i) (State h e pl S W) = true ->
  preserved track (exec (OpCopy i) (State h e pl S W)).
Proof.
  intros Happ. apply andb_prop in Happ as [Hi Hroom].
  get_shared Hi c q. get_room Hroom.
  destruct (shared_ptr_copy_step track h e pl S S W W i _ Hinv HlenS Hi) as (h1 & Hrun & Hinv1).
  unfold exec, bind. rewrite (read_shared_eq _ _ _ _ _ _ _ Hi). mstep.
  rewrite Hrun. finish.
  - apply inv_push_shared, Hinv1.
  - rewrite length_app. simpl. lia.
Qed.

Lemma exec_OpAlias i q' :
  applicable (OpAlias i q') (State h e pl S W) = true ->
  preserved track (exec (OpAlias i q') (State h e pl S W)).
Proof.
  intros Happ. apply andb_prop in Happ as [Hi Hroom].
  get_shared Hi c q. get_room Hroom.
  destruct (shared_ptr_alias_step track h e pl S S W W i _ q' Hinv HlenS Hi)
    as (h1 & Hrun & Hinv1).
  unfold exec, bind. rewrite (read_shared_eq _ _ _ _ _ _ _ Hi). mstep.
  rewrite Hrun. finish.
  - apply inv_push_shared, Hinv1.
  - rewrite length_app. simpl. lia.
Qed.

Lemma exec_OpMove i :
  applicable (OpMove i) (State h e pl S W) = true ->
  preserved track (exec (OpMove i) (State h e pl S W)).
Proof.
  intros Happ. apply andb_prop in Happ as [Hi Hroom].
  get_shared Hi c q. get_room Hroom.
  unfold exec, bind, shared_ptr_move. rewrite (read_shared_eq _ _ _ _ _ _ _ Hi). mstep.
  rewrite (write_shared_eq _ _ _ _ _ _ _ _ Hi). finish.
  - apply inv_push_shared, inv_replace_shared; [exact Hi|].
    apply inv_gain_strong_null, Hinv.
  - rewrite length_app, length_insert. simpl. lia.
Qed.

Lemma exec_OpUpgrade j :
  track = None ->
  applicable (OpUpgrade j) (State h e pl S W) = true ->
  preserved track (exec (OpUpgrade j) (State h e pl S W)).
Proof.
  intros Htrack Happ. apply andb_prop in Happ as [Hj Hroom].
  get_weak Hj c q. get_room Hroom.
  destruct (shared_ptr_from_weak_step track h e pl S S W W j _ Htrack Hinv HlenS Hj)
    as (h1 & Hrun & Hinv1).
  unfold exec, bind. rewrite (read_weak_eq _ _ _ _ _ _ _ Hj). mstep.
  rewrite Hrun. finish.
  - apply inv_push_shared, Hinv1.
  - rewrite length_app. simpl. lia.
Qed.

Lemma exec_OpLock j :
  applicable (OpLock j) (State h e pl S W) = true ->
  preserved track (exec (OpLock j) (State h e pl S W)).
Proof.
  intros Happ. apply andb_prop in Happ as [Hj Hroom].
  get_weak Hj c q. get_room Hroom.
  destruct (weak_ptr_lock_step track h e pl S S W W j _ Hinv HlenS Hj)
    as (n & h1 & Hrun & Hinv1).
  unfold exec, bind. rewrite (read_weak_eq _ _ _ _ _ _ _ Hj). mstep.
  rewrite Hrun. finish.
  - apply inv_push_shared, Hinv1.
  - rewrite length_app. simpl. lia.
Qed.

Lemma exec_OpAssignCopy i k :
  applicable (OpAssignCopy i k) (State h e pl S W) = true ->
  preserved track (exec (OpAssignCopy i k) (State h e pl S W)).
Proof.
  intros Happ. apply andb_prop in Happ as [Hi Hk].
  get_shared Hi ci qi. get_shared Hk ck qk.
  destruct (shared_ptr_copy_step track h e pl S S W W k _ Hinv HlenS Hk) as (h1 & Hrun & Hinv1).
  apply (inv_replace_shared _ _ _ _ _ i _ _ Hi) in Hinv1.
  destruct (shared_ptr_dtor_step track h1 e pl _ (<[i := SharedPtr ck qk]> S) W W _ Hinv1)
    as (h2 & e2 & Hrun2 & Hinv2).
  unfold exec, shared_ptr_assign_copy, bind, shared_ptr_swap.
  rewrite (read_shared_eq _ _ _ _ _ _ _ Hk). mstep. rewrite Hrun. mstep.
  rewrite (read_shared_eq _ _ _ _ _ _ _ Hi). mstep.
  rewrite (write_shared_eq _ _ _ _ _ _ _ _ Hi). cbn [s_cb s_ptr]. rewrite Hrun2.
  finish; [exact Hinv2 | rewrite length_insert; exact HlenS].
Qed.

Lemma exec_OpAssignMove i k :
  applicable (OpAssignMove i k) (State h e pl S W) = true ->
  preserved track (exec (OpAssignMove i k) (State h e pl S W)).
Proof.
  intros Happ. apply andb_prop in Happ as [Hi Hk].
  get_shared Hi ci qi. get_shared Hk ck qk.
  unfold exec, shared_ptr_assign_move.
  destruct (Nat.eqb_spec i k) as [-> | Hne]; cbn [negb].
  - unfold ret. exact Hgood.
  - assert (Hi' : <[k := SharedPtr nullptr nullptr]> S !! i = Some (SharedPtr ci qi))
      by (rewrite list_lookup_insert_ne by congruence; exact Hi).
    pose proof (inv_gain_strong_null track h e S W nullptr Hinv) as Hinv1.
    apply (inv_replace_shared _ _ _ _ _ k _ _ Hk) in Hinv1.
    apply (inv_replace_shared _ _ _ _ _ i _ _ Hi') in Hinv1.
    destruct (shared_ptr_dtor_step track h e pl _
                (<[i := SharedPtr ck qk]> (<[k := SharedPtr nullptr nullptr]> S)) W W _ Hinv1)
      as (h2 & e2 & Hrun2 & Hinv2).
    unfold bind, shared_ptr_move, shared_ptr_swap.
    rewrite (read_shared_eq _ _ _ _ _ _ _ Hk). mstep.
    rewrite (write_shared_eq _ _ _ _ _ _ _ _ Hk). mstep.
    rewrite (read_shared_eq _ _ _ _ _ _ _ Hi'). mstep.
    rewrite (write_shared_eq _ _ _ _ _ _ _ _ Hi'). cbn [s_cb s_ptr]. rewrite Hrun2.
    finish; [exact Hinv2 | rewrite !length_insert; exact HlenS].
Qed.

Lemma exec_OpReset i :
  applicable (OpReset i) (State h e pl S W) = true ->
  preserved track (exec (OpReset i) (State h e pl S W)).
Proof.
  intros Hi. cbn [applicable] in Hi. get_shared Hi c q.
  pose proof (inv_gain_strong_null track h e S W nullptr Hinv) as Hinv1.
  apply (inv_replace_shared _ _ _ _ _ i _ _ Hi) in Hinv1.
  destruct (shared_ptr_dtor_step track h e pl _ S W W _ Hinv1) as (h2 & e2 & Hrun2 & Hinv2).
  unfold exec, shared_ptr_reset, bind, shared_ptr_swap, shared_ptr_default.
  rewrite (read_shared_eq _ _ _ _ _ _ _ Hi). mstep. cbn [s_cb s_ptr].
  rewrite Hrun2. unfold ret. rewrite (write_shared_eq _ _ _ _ _ _ _ _ Hi).
  finish; [exact Hinv2 | rewrite length_insert; exact HlenS].
Qed.

Lemma exec_OpDestroy i :
  applicable (OpDestroy i) (State h e pl S W) = true ->
  preserved track (exec (OpDestroy i) (State h e pl S W)).
Proof.
  intros Hi. cbn [applicable] in Hi. get_shared Hi c q.
  pose proof (inv_pick_shared _ _ _ _ _ i _ Hi Hinv) as Hinv1.
  destruct (shared_ptr_dtor_step track h e pl _ S W W _ Hinv1) as (h2 & e2 & Hrun2 & Hinv2).
  unfold exec, bind. rewrite (read_shared_eq _ _ _ _ _ _ _ Hi). mstep.
  rewrite Hrun2. finish; [exact Hinv2 |].
  pose proof (length_delete S i (mk_is_Some _ _ Hi)). lia.
Qed.
Lemma exec_OpWeak i :
  applicable (OpWeak i) (State h e pl S W) = true ->
  preserved track (exec (OpWeak i) (State h e pl S W)).
Proof.
  intros Happ. apply andb_prop in Happ as [Hi Hroom].
  get_shared Hi c q. get_room Hroom.
  destruct (weak_ptr_from_shared_step track h e pl S S W W i _ Hinv HlenW Hi)
    as (h1 & Hrun & Hinv1).
  unfold exec, bind. rewrite (read_shared_eq _ _ _ _ _ _ _ Hi). mstep.
  rewrite Hrun. finish.
  - apply inv_push_weak, Hinv1.
  - rewrite length_app. simpl. lia.
Qed.

Lemma exec_OpWeakCopy j :
  applicable (OpWeakCopy j) (State h e pl S W) = true ->
  preserved track (exec (OpWeakCopy j) (State h e pl S W)).
Proof.
  intros Happ. apply andb_prop in Happ as [Hj Hroom].
  get_weak Hj c q. get_room Hroom.
  destruct (weak_ptr_copy_step track h e pl S S W W j _ Hinv HlenW Hj) as (h1 & Hrun & Hinv1).
  unfold exec, bind. rewrite (read_weak_eq _ _ _ _ _ _ _ Hj). mstep.
  rewrite Hrun. finish.
  - apply inv_push_weak, Hinv1.
  - rewrite length_app. simpl. lia.
Qed.

Lemma exec_OpWeakMove j :
  applicable (OpWeakMove j) (State h e pl S W) = true ->
  preserved track (exec (OpWeakMove j) (State h e pl S W)).
Proof.
  intros Happ. apply andb_prop in Happ as [Hj Hroom].
  get_weak Hj c q. get_room Hroom.
  unfold exec, bind, weak_ptr_move. rewrite (read_weak_eq _ _ _ _ _ _ _ Hj). mstep.
  rewrite (write_weak_eq _ _ _ _ _ _ _ _ Hj). finish.
  - apply inv_push_weak, inv_replace_weak; [exact Hj|].
    apply inv_gain_weak_null, Hinv.
  - rewrite length_app, length_insert. simpl. lia.
Qed.

Lemma exec_OpWeakAssignCopy j k :
  applicable (OpWeakAssignCopy j k) (State h e pl S W) = true ->
  preserved track (exec (OpWeakAssignCopy j k) (State h e pl S W)).
Proof.
  intros Happ. apply andb_prop in Happ as [Hj Hk].
  get_weak Hj cj qj. get_weak Hk ck qk.
  destruct (weak_ptr_copy_step track h e pl S S W W k _ Hinv HlenW Hk) as (h1 & Hrun & Hinv1).
  apply (inv_replace_weak _ _ _ _ _ j _ _ Hj) in Hinv1.
  destruct (weak_ptr_dtor_step track h1 e pl S S _ (<[j := WeakPtr ck qk]> W) _ Hinv1)
    as (h2 & e2 & Hrun2 & Hinv2).
  unfold exec, weak_ptr_assign_copy, bind, weak_ptr_swap.
  rewrite (read_weak_eq _ _ _ _ _ _ _ Hk). mstep. rewrite Hrun. mstep.
  rewrite (read_weak_eq _ _ _ _ _ _ _ Hj). mstep.
  rewrite (write_weak_eq _ _ _ _ _ _ _ _ Hj). cbn [w_cb w_ptr]. rewrite Hrun2.
  finish; [exact Hinv2 | rewrite length_insert; exact HlenW].
Qed.

Lemma exec_OpWeakAssignMove j k :
  applicable (OpWeakAssignMove j k) (State h e pl S W) = true ->
  preserved track (exec (OpWeakAssignMove j k) (State h e pl S W)).
Proof.
  intros Happ. apply andb_prop in Happ as [Hj Hk].
  get_weak Hj cj qj. get_weak Hk ck qk.
  unfold exec, weak_ptr_assign_move.
  destruct (Nat.eqb_spec j k) as [-> | Hne]; cbn [negb].
  - unfold ret. exact Hgood.
  - assert (Hj' : <[k := WeakPtr nullptr nullptr]> W !! j = Some (WeakPtr cj qj))
      by (rewrite list_lookup_insert_ne by congruence; exact Hj).
    pose proof (inv_gain_weak_null track h e S W nullptr Hinv) as Hinv1.
    apply (inv_replace_weak _ _ _ _ _ k _ _ Hk) in Hinv1.
    apply (inv_replace_weak _ _ _ _ _ j _ _ Hj') in Hinv1.
    destruct (weak_ptr_dtor_step track h e pl S S _
                (<[j := WeakPtr ck qk]> (<[k := WeakPtr nullptr nullptr]> W)) _ Hinv1)
      as (h2 & e2 & Hrun2 & Hinv2).
    unfold bind, weak_ptr_move, weak_ptr_swap.
    rewrite (read_weak_eq _ _ _ _ _ _ _ Hk). mstep.
    rewrite (write_weak_eq _ _ _ _ _ _ _ _ Hk). mstep.
    rewrite (read_weak_eq _ _ _ _ _ _ _ Hj'). mstep.
    rewrite (write_weak_eq _ _ _ _ _ _ _ _ Hj'). cbn [w_cb w_ptr]. rewrite Hrun2.
    finish; [exact Hinv2 | rewrite !length_insert; exact HlenW].
Qed.

Lemma exec_OpWeakDestroy j :
  applicable (OpWeakDestroy j) (State h e pl S W) = true ->
  preserved track (exec (OpWeakDestroy j) (State h e pl S W)).
Proof.
  intros Hj. cbn [applicable] in Hj. get_weak Hj c q.
  pose proof (inv_pick_weak _ _ _ _ _ j _ Hj Hinv) as Hinv1.
  destruct (weak_ptr_dtor_step track h e pl S S _ W _ Hinv1) as (h2 & e2 & Hrun2 & Hinv2).
  unfold exec, bind. rewrite (read_weak_eq _ _ _ _ _ _ _ Hj). mstep.
  rewrite Hrun2. finish; [exact Hinv2 |].
  pose proof (length_delete W j (mk_is_Some _ _ Hj)). lia.
Qed.

Lemma exec_OpNew q d :
  track = None ->
  applicable (OpNew q d) (State h e pl S W) = true ->
  preserved track (exec (OpNew q d) (State h e pl S W)).
Proof.
  intros Htrack Hroom. cbn [applicable] in Hroom. get_room Hroom.
  destruct (fresh_addr_spec h) as [Hnn Hfree].
  unfold exec, bind. rewrite shared_ptr_from_raw_eq.
  assert (Hinv0 : inv None h e S W) by (rewrite <- Htrack; exact Hinv).
  assert (Hok : preserved track
    (push_shared (SharedPtr (fresh_addr h) q)
       (State (<[fresh_addr h := ControlBlock 1 0 (control_block_ptr q d)]> h)
              (e ++ [EvNew (fresh_addr h)]) (tail pl) S W))).
  { rewrite Htrack. finish.
    - apply inv_push_shared. eapply inv_new_block; eassumption.
    - rewrite length_app. simpl. lia. }
  destruct pl as [|[] pl']; try exact Hok.
  rewrite Htrack. finish. eapply inv_events_irrelevant, Hinv0.
Qed.

Lemma exec_OpMake A args :
  track = None ->
  applicable (OpMake A args) (State h e pl S W) = true ->
  preserved track (exec (OpMake A args) (State h e pl S W)).
Proof.
  intros Htrack Hroom. cbn [applicable] in Hroom. get_room Hroom.
  destruct (fresh_addr_spec h) as [Hnn Hfree].
  unfold exec, bind. rewrite make_shared_eq.
  assert (Hinv0 : inv None h e S W) by (rewrite <- Htrack; exact Hinv).
  rewrite Htrack.
  destruct pl as [|[] pl']; destruct (ctor_throws A args); finish;
    try (eapply inv_events_irrelevant, Hinv0);
    try (apply inv_push_shared; eapply inv_new_block; eassumption);
    rewrite length_app; simpl; lia.
Qed.
End Statements.

(** Every applicable statement preserves the invariant; while a block is
    being tracked, the program neither allocates nor builds a [shared_ptr]
    directly from a [weak_ptr]. *)
Lemma exec_preserved track o σ :
  good track σ -> applicable o σ = true ->
  (track <> None -> is_alloc o = false /\ is_upgrade o = false) ->
  preserved track (exec o σ).
Proof.
  intros Hgood Happ Hrestr. destruct σ as [h e pl S W].
  assert (Hnone : is_alloc o = true \/ is_upgrade o = true -> track = None).
  { intros Hor. destruct track; [|reflexivity].
    destruct Hrestr as [Ha Hu]; [discriminate|]. rewrite Ha, Hu in Hor.
    destruct Hor; discriminate. }
  destruct o.
  - apply exec_OpNew; auto.
  - apply exec_OpMake; auto.
  - apply exec_OpCopy; auto.
  - apply exec_OpAlias; auto.
  - apply exec_OpMove; auto.
  - apply exec_OpUpgrade; auto.
  - apply exec_OpLock; auto.
  - apply exec_OpAssignCopy; auto.
  - apply exec_OpAssignMove; auto.
  - apply exec_OpReset; auto.
  - apply exec_OpDestroy; auto.
  - apply exec_OpWeak; auto.
  - apply exec_OpWeakCopy; auto.
  - apply exec_OpWeakMove; auto.
  - apply exec_OpWeakAssignCopy; auto.
  - apply exec_OpWeakAssignMove; auto.
  - apply exec_OpWeakDestroy; auto.
Qed.

(** A well-formed program keeps the invariant to its end. *)
Lemma run_preserved track tr : forall σ,
  good track σ -> trace_ok tr σ = true ->
  (track <> None -> forallb plain tr = true) ->
  preserved track (run tr σ).
Proof.
  induction tr as [|o tr IH]; intros σ Hgood Hok Hplain.
  - exact Hgood.
  - cbn [trace_ok] in Hok. apply andb_prop in Hok as [Happ Hrest].
    assert (Ho : track <> None -> is_alloc o = false /\ is_upgrade o = false).
    { intros Hne. specialize (Hplain Hne). cbn [forallb] in Hplain.
      apply andb_prop in Hplain as [Hp _]. unfold plain in Hp.
      apply andb_prop in Hp as [Ha Hu].
      split; [destruct (is_alloc o) | destruct (is_upgrade o)]; auto; discriminate. }
    pose proof (exec_preserved track o σ Hgood Happ Ho) as Hstep.
    cbn [run]. unfold bind. destruct (exec o σ) as [[] σ' | x σ' |]; cbn in Hstep |- *.
    + apply IH; [exact Hstep | exact Hrest |].
      intros Hne. specialize (Hplain Hne). cbn [forallb] in Hplain.
      apply andb_prop in Hplain as [_ Hp]. exact Hp.
    + exact Hstep.
    + exact Hstep.
Qed.

Lemma good_init pl : good None (init pl).
Proof.
  unfold good, init, inv, consistent. cbn [heap events shared weak length].
  split; [split; [|exact I] | split; unfold max_handles; lia].
  intros bl _. rewrite lookup_empty. split; reflexivity.
Qed.

(** Programs started from the empty state never run into undefined
    behaviour, and their states are well formed. *)
Lemma run_wf pl tr :
  trace_ok tr (init pl) = true ->
  match run tr (init pl) with
  | Ok _ σ' => wf σ'
  | Throw _ σ' => wf σ'
  | Undefined => False
  end.
Proof.
  intros Hok.
  pose proof (run_preserved None tr (init pl) (good_init pl) Hok) as Hp.
  assert (Hg : forall σ, good None σ -> wf σ).
  { intros σ [[Hc _] Hl]. split; assumption. }
  destruct (run tr (init pl)) as [[] σ' | x σ' |]; cbn in Hp.
  - apply Hg, Hp. intros Hne; contradiction.
  - apply Hg, Hp. intros Hne; contradiction.
  - apply Hp. intros Hne; contradiction.
Qed.

(** * The claims *)

(** Claim C1.  Constructing a shared pointer from a raw pointer [p] (the
    allocation of the block succeeding) gives [use_count() = 1]; after a
    copy both handles report 2; destroying the copy brings the original back
    to 1 without touching the payload; destroying the original then calls
    the deleter on [p] exactly once and frees the block. *)
Theorem C1_use_count_lifecycle (p : Z) (d : deleter) (σ : state) :
  hd true (plan σ) = true ->
  exists p1 σ1 p2 σ2 σ3 σ4,
    shared_ptr_from_raw p d σ = Ok p1 σ1 /\
    shared_ptr_use_count p1 σ1 = Ok 1 σ1 /\
    shared_ptr_copy p1 σ1 = Ok p2 σ2 /\
    shared_ptr_use_count p1 σ2 = Ok 2 σ2 /\
    shared_ptr_use_count p2 σ2 = Ok 2 σ2 /\
    shared_ptr_dtor p2 σ2 = Ok tt σ3 /\
    shared_ptr_use_count p1 σ3 = Ok 1 σ3 /\
    events σ3 = events σ1 /\
    shared_ptr_dtor p1 σ3 = Ok tt σ4 /\
    events σ4 =
      events σ1 ++ [EvDeleteObject (s_cb p1); EvDeleter d p; EvDelete (s_cb p1)] /\
    heap σ4 = heap σ.
Proof.
  destruct σ as [h e pl s w]. cbn [plan heap events]. intros Hpl.
  destruct (fresh_addr_spec h) as [Hnn Hfree].
  set (bl := fresh_addr h) in *.
  set (b1 := ControlBlock 1 0 (control_block_ptr p d)).
  set (b2 := with_ref b1 (size_t (ref_count b1 + 1))).
  set (b3 := with_ref b2 (size_t (ref_count b2 - 1))).
  assert (Hb3 : b3 = b1) by reflexivity.
  exists (SharedPtr bl p), (State (<[bl := b1]> h) (e ++ [EvNew bl]) (tail pl) s w).
  exists (SharedPtr bl p), (State (<[bl := b2]> (<[bl := b1]> h)) (e ++ [EvNew bl]) (tail pl) s w).
  exists (State (<[bl := b1]> h) (e ++ [EvNew bl]) (tail pl) s w).
  exists (State h ((e ++ [EvNew bl]) ++ [EvDeleteObject bl; EvDeleter d p; EvDelete bl])
            (tail pl) s w).
  assert (H1 : <[bl := b1]> h !! bl = Some b1) by apply lookup_insert_eq.
  assert (H2 : <[bl := b2]> (<[bl := b1]> h) !! bl = Some b2) by apply lookup_insert_eq.
  repeat split.
  - rewrite shared_ptr_from_raw_eq. destruct pl as [|[] pl']; [reflexivity.. | discriminate].
  - apply (shared_ptr_use_count_eq _ _ _ _ _ _ _ Hnn H1).
  - apply (shared_ptr_copy_eq _ _ _ _ _ _ _ Hnn H1).
  - apply (shared_ptr_use_count_eq _ _ _ _ _ _ _ Hnn H2).
  - apply (shared_ptr_use_count_eq _ _ _ _ _ _ _ Hnn H2).
  - rewrite (shared_ptr_dtor_eq _ _ _ _ _ _ _ Hnn H2).
    unfold heap_after_release_ref, events_of_release_ref. fold b3. rewrite Hb3.
    change (size_t (ref_count b2 - 1)) with 1. cbn [Z.eqb andb app].
    rewrite !insert_insert_eq, app_nil_r. reflexivity.
  - apply (shared_ptr_use_count_eq _ _ _ _ _ _ _ Hnn H1).
  - rewrite (shared_ptr_dtor_eq _ _ _ _ _ _ _ Hnn H1).
    unfold heap_after_release_ref, events_of_release_ref.
    change (size_t (ref_count b1 - 1)) with 0. cbn.
    rewrite delete_insert_eq, delete_id by exact Hfree. reflexivity.
Qed.

Lemma C1_use_count_lifecycle_witness :
  hd true (plan (init [])) = true /\
  exists p1 σ1 p2 σ2 σ3 σ4,
    shared_ptr_from_raw 100 7%nat (init []) = Ok p1 σ1 /\
    shared_ptr_use_count p1 σ1 = Ok 1 σ1 /\
    shared_ptr_copy p1 σ1 = Ok p2 σ2 /\
    shared_ptr_use_count p1 σ2 = Ok 2 σ2 /\
    shared_ptr_use_count p2 σ2 = Ok 2 σ2 /\
    shared_ptr_dtor p2 σ2 = Ok tt σ3 /\
    shared_ptr_use_count p1 σ3 = Ok 1 σ3 /\
    events σ3 = events σ1 /\
    shared_ptr_dtor p1 σ3 = Ok tt σ4 /\
    events σ4 =
      events σ1 ++ [EvDeleteObject (s_cb p1); EvDeleter 7%nat 100; EvDelete (s_cb p1)] /\
    heap σ4 = heap (init []).
Proof.
  split; [reflexivity|].
  apply (C1_use_count_lifecycle 100 7%nat (init [])). reflexivity.
Defined.

(** ** The release protocol of one block *)



(** Claim C2.  A program in which a [shared_ptr] is constructed directly from a
    weak pointer whose block has lost all its owners: every release follows
    an add, every statement is applicable, and the payload of the one block
    is destroyed twice (the deleter runs twice on the same pointer). *)
Theorem C2_payload_destroyed_twice :
  let tr := [OpNew 100 7%nat; OpWeak 0; OpDestroy 0; OpUpgrade 0; OpDestroy 0;
             OpWeakDestroy 0] in
  trace_ok tr (init []) = true /\
  exists σ',
    run tr (init []) = Ok tt σ' /\
    events σ' = [EvNew 1; EvDeleteObject 1; EvDeleter 7%nat 100;
                 EvDeleteObject 1; EvDeleter 7%nat 100; EvDelete 1] /\
    destroyed 1 (events σ') = 2%nat /\
    freed 1 (events σ') = 1%nat.
Proof.
  intros tr. split; [vm_compute; reflexivity|].
  eexists. split; [vm_compute; reflexivity|]. repeat split.
Qed.

(** [lock()] checks the strong count before it upgrades. *)
Lemma weak_ptr_lock_spec (w : weak_ptr) (σ : state) :
  (w_cb w = nullptr -> weak_ptr_lock w σ = Ok shared_ptr_default σ) /\
  (forall b, w_cb w <> nullptr -> heap σ !! w_cb w = Some b ->
     weak_ptr_lock w σ =
     if ref_count b =? 0 then Ok shared_ptr_default σ
     else Ok (SharedPtr (w_cb w) (w_ptr w))
            (set_heap (insert (w_cb w) (with_ref b (size_t (ref_count b + 1)))) σ)).
Proof.
  destruct w as [c q], σ as [h e pl S W]. cbn [w_cb w_ptr heap]. split.
  - intros ->. reflexivity.
  - intros b Hc Hb. apply (weak_ptr_lock_eq _ _ _ _ _ _ _ Hc Hb).
Qed.

(** The converting constructor does not look at the strong count. *)
Lemma shared_ptr_from_weak_spec (w : weak_ptr) (σ : state) :
  (w_cb w = nullptr ->
     shared_ptr_from_weak w σ = Ok (SharedPtr nullptr (w_ptr w)) σ) /\
  (forall b, w_cb w <> nullptr -> heap σ !! w_cb w = Some b ->
     shared_ptr_from_weak w σ =
     Ok (SharedPtr (w_cb w) (w_ptr w))
        (set_heap (insert (w_cb w) (with_ref b (size_t (ref_count b + 1)))) σ)).
Proof.
  destruct w as [c q], σ as [h e pl S W]. cbn [w_cb w_ptr heap]. split.
  - intros ->. reflexivity.
  - intros b Hc Hb. apply (shared_ptr_from_weak_eq _ _ _ _ _ _ _ Hc Hb).
Qed.

(** Claim C3.  After the only owner of a block is gone, a weak pointer to the
    block is expired and [lock()] gives the empty handle, but constructing a
    [shared_ptr] from the weak pointer gives a handle on the block and sets
    its strong count to 1. *)
Theorem C3_upgrade_of_expired_weak_ptr :
  let tr := [OpNew 100 7%nat; OpWeak 0; OpDestroy 0] in
  let w := WeakPtr 1 100 in
  let blk := ControlBlock 0 1 (control_block_ptr 100 7%nat) in
  let σ := State {[1 := blk]} [EvNew 1; EvDeleteObject 1; EvDeleter 7%nat 100] [] [] [w] in
  trace_ok tr (init []) = true /\
  run tr (init []) = Ok tt σ /\
  weak_ptr_expired w σ = Ok true σ /\
  weak_ptr_lock w σ = Ok shared_ptr_default σ /\
  shared_ptr_from_weak w σ =
    Ok (SharedPtr 1 100) (set_heap (insert 1 (with_ref blk 1)) σ) /\
  shared_ptr_use_count (SharedPtr 1 100) (set_heap (insert 1 (with_ref blk 1)) σ) =
    Ok 1 (set_heap (insert 1 (with_ref blk 1)) σ).
Proof.
  intros tr w blk σ. repeat split; vm_compute; reflexivity.
Qed.

(** Claim C4.  When the payload constructor throws on the arguments forwarded by
    [make_shared] (the storage of the block having been obtained), the same
    exception leaves [make_shared]: no shared pointer is returned, the heap
    is as before, the storage obtained is given back, and neither a payload
    destructor nor [delete_object] runs. *)
Theorem C4_make_shared_constructor_throws
    (A : payload_class) (args : list Z) (x : exn) (σ : state) :
  ctor_throws A args = Some x ->
  hd true (plan σ) = true ->
  exists bl,
    make_shared A args σ =
    Throw x (State (heap σ) (events σ ++ [EvNew bl; EvDelete bl]) (tail (plan σ))
               (shared σ) (weak σ)).
Proof.
  destruct σ as [h e pl s w]. cbn [plan heap events shared weak]. intros Hx Hpl.
  exists (fresh_addr h). rewrite make_shared_eq, Hx.
  destruct pl as [|[] pl']; [reflexivity.. | discriminate].
Qed.

Lemma C4_make_shared_constructor_throws_witness :
  let A := PayloadClass (fun _ => Some (payload_error 3)) in
  ctor_throws A [1; 2] = Some (payload_error 3) /\
  hd true (plan (init [])) = true /\
  exists bl,
    make_shared A [1; 2] (init []) =
    Throw (payload_error 3) (State ∅ [EvNew bl; EvDelete bl] [] [] []).
Proof.
  intros A. split; [reflexivity|]. split; [reflexivity|].
  apply (C4_make_shared_constructor_throws A [1; 2] (payload_error 3) (init []));
    reflexivity.
Defined.

(** Claim C5.  Constructing a shared pointer from the raw pointer [p] with the
    deleter [d]: when the allocation of the control block fails, [d] is
    called on [p] once, then [bad_alloc] propagates and no shared pointer
    results; when it succeeds, the only event is the allocation, so [d] is
    not called. *)
Theorem C5_allocation_failure_calls_deleter (p : Z) (d : deleter) (σ : state) :
  match plan σ with
  | false :: pl' =>
    shared_ptr_from_raw p d σ =
    Throw bad_alloc (State (heap σ) (events σ ++ [EvDeleter d p]) pl' (shared σ) (weak σ))
  | _ =>
    exists bl,
      bl <> nullptr /\ heap σ !! bl = None /\
      shared_ptr_from_raw p d σ =
      Ok (SharedPtr bl p)
         (State (<[bl := ControlBlock 1 0 (control_block_ptr p d)]> (heap σ))
                (events σ ++ [EvNew bl]) (tail (plan σ)) (shared σ) (weak σ))
  end.
Proof.
  destruct σ as [h e pl s w]. cbn [plan heap events shared weak].
  rewrite shared_ptr_from_raw_eq. destruct (fresh_addr_spec h) as [Hnn Hfree].
  destruct pl as [|[] pl']; try reflexivity;
    exists (fresh_addr h); repeat split; assumption.
Qed.

(** Claim C6.  Moving from the shared pointer object [i] (resp. the weak pointer
    object [j]) creates an object with its two members, leaves the source
    with both members null, so that its [use_count()] is 0, and changes
    neither the heap (hence no counter) nor the events. *)
Theorem C6_move_transfers_without_counting
    (σ : state) (i j : nat) (x : shared_ptr) (y : weak_ptr) :
  shared σ !! i = Some x ->
  weak σ !! j = Some y ->
  let σs := State (heap σ) (events σ) (plan σ)
              (<[i := SharedPtr nullptr nullptr]> (shared σ) ++ [x]) (weak σ) in
  let σw := State (heap σ) (events σ) (plan σ)
              (shared σ) (<[j := WeakPtr nullptr nullptr]> (weak σ) ++ [y]) in
  shared_ptr_move x = (x, SharedPtr nullptr nullptr) /\
  exec (OpMove i) σ = Ok tt σs /\
  shared_ptr_use_count (SharedPtr nullptr nullptr) σs = Ok 0 σs /\
  weak_ptr_move y = (y, WeakPtr nullptr nullptr) /\
  exec (OpWeakMove j) σ = Ok tt σw /\
  weak_ptr_use_count (WeakPtr nullptr nullptr) σw = Ok 0 σw.
Proof.
  destruct σ as [h e pl S W]. cbn [plan heap events shared weak]. intros Hi Hj.
  destruct x as [c q], y as [c' q']. repeat split.
  - unfold exec, bind, shared_ptr_move. rewrite (read_shared_eq _ _ _ _ _ _ _ Hi). mstep.
    rewrite (write_shared_eq _ _ _ _ _ _ _ _ Hi). reflexivity.
  - unfold exec, bind, weak_ptr_move. rewrite (read_weak_eq _ _ _ _ _ _ _ Hj). mstep.
    rewrite (write_weak_eq _ _ _ _ _ _ _ _ Hj). reflexivity.
Qed.

Lemma C6_move_transfers_without_counting_witness :
  let σ := State {[1 := ControlBlock 1 1 (control_block_ptr 100 7%nat)]} [EvNew 1] []
             [SharedPtr 1 100] [WeakPtr 1 100] in
  shared σ !! 0%nat = Some (SharedPtr 1 100) /\
  weak σ !! 0%nat = Some (WeakPtr 1 100) /\
  exec (OpMove 0) σ =
    Ok tt (State (heap σ) (events σ) [] [SharedPtr nullptr nullptr; SharedPtr 1 100]
             [WeakPtr 1 100]) /\
  exec (OpWeakMove 0) σ =
    Ok tt (State (heap σ) (events σ) [] [SharedPtr 1 100]
             [WeakPtr nullptr nullptr; WeakPtr 1 100]).
Proof.
  intros σ. split; [reflexivity|]. split; [reflexivity|].
  pose proof (C6_move_transfers_without_counting σ 0 0 (SharedPtr 1 100) (WeakPtr 1 100)
                eq_refl eq_refl) as H.
  cbv zeta in H. destruct H as (_ & Hs & _ & _ & Hw & _). split; [exact Hs | exact Hw].
Defined.

(** Claim C7.  [expired()] is true exactly when the strong count the weak pointer
    observes is 0, a null control-block pointer counting as 0.  In every
    state a well-formed program reaches, a weak pointer whose block has no
    shared pointer left is expired and [lock()] returns the empty shared
    pointer, changing nothing. *)
Theorem C7_expired_iff_no_strong_owner
    (pl : list bool) (tr : list op) (σ' : state) (j : nat) (w : weak_ptr) :
  trace_ok tr (init pl) = true ->
  run tr (init pl) = Ok tt σ' ->
  weak σ' !! j = Some w ->
  w_cb w = nullptr \/ owners (w_cb w) (shared σ') = 0 ->
  (forall (v : weak_ptr) (σ : state),
     (w_cb v = nullptr -> weak_ptr_use_count v σ = Ok 0 σ) /\
     (forall b, w_cb v <> nullptr -> heap σ !! w_cb v = Some b ->
        weak_ptr_use_count v σ = Ok (ref_count b) σ) /\
     (forall u, weak_ptr_use_count v σ = Ok u σ ->
        weak_ptr_expired v σ = Ok (u =? 0) σ)) /\
  weak_ptr_expired w σ' = Ok true σ' /\
  weak_ptr_lock w σ' = Ok shared_ptr_default σ'.
Proof.
  intros Hok Hrun Hj Hnone. split.
  - intros [c q] [h e p s ww]. cbn [w_cb heap]. split; [|split].
    + intros ->. reflexivity.
    + intros b Hc Hb. apply (weak_ptr_use_count_eq _ _ _ _ _ _ _ Hc Hb).
    + intros u Hu. unfold weak_ptr_expired, bind. rewrite Hu. reflexivity.
  - pose proof (run_wf pl tr Hok) as Hwf. rewrite Hrun in Hwf.
    destruct σ' as [h e p S W], w as [c q]. cbn [weak shared w_cb] in *.
    destruct (decide (c = nullptr)) as [-> | Hc]; [split; reflexivity|].
    destruct Hnone as [Hn | Hzero]; [contradiction|].
    destruct Hwf as [Hcons _]. cbn [heap shared weak] in Hcons.
    specialize (Hcons c Hc).
    pose proof (count_cb_pos w_cb c W j (WeakPtr c q) Hj eq_refl) as Hpos.
    fold (watchers c W) in Hpos.
    destruct (h !! c) as [b|] eqn:Hb; [|lia].
    destruct Hcons as (Hr & _). rewrite Hzero in Hr.
    rewrite (weak_ptr_expired_eq _ _ _ _ _ _ _ Hc Hb), (weak_ptr_lock_eq _ _ _ _ _ _ _ Hc Hb).
    rewrite Hr. split; reflexivity.
Qed.

Lemma C7_expired_iff_no_strong_owner_witness :
  let tr := [OpNew 100 7%nat; OpCopy 0; OpWeak 1; OpDestroy 0; OpDestroy 0] in
  let σ' := State {[1 := ControlBlock 0 1 (control_block_ptr 100 7%nat)]}
              [EvNew 1; EvDeleteObject 1; EvDeleter 7%nat 100] [] [] [WeakPtr 1 100] in
  trace_ok tr (init []) = true /\
  run tr (init []) = Ok tt σ' /\
  weak σ' !! 0%nat = Some (WeakPtr 1 100) /\
  owners 1 (shared σ') = 0 /\
  weak_ptr_expired (WeakPtr 1 100) σ' = Ok true σ' /\
  weak_ptr_lock (WeakPtr 1 100) σ' = Ok shared_ptr_default σ'.
Proof.
  intros tr σ'.
  assert (Hok : trace_ok tr (init []) = true) by (vm_compute; reflexivity).
  assert (Hrun : run tr (init []) = Ok tt σ') by (vm_compute; reflexivity).
  split; [exact Hok|]. split; [exact Hrun|]. split; [reflexivity|]. split; [reflexivity|].
  pose proof (C7_expired_iff_no_strong_owner [] tr σ' 0 (WeakPtr 1 100)
                Hok Hrun eq_refl (or_intror eq_refl)) as H.
  destruct H as (_ & He & Hl). split; assumption.
Defined.

(** Claim C8.  For a shared pointer [b] that owns a block (strong count at least
    1, below [SIZE_MAX]) and a raw pointer [q], the aliasing constructor
    gives a handle [m] on the same block that stores [q], and adds one to
    the strong count.  Destroying [b] afterwards destroys nothing: the block
    stays allocated with the strong count it had, and [m.get()] is still
    [q].  The payload is destroyed when [m] is destroyed exactly if [m] was
    then the last owner. *)
Theorem C8_aliasing_shares_ownership
    (σ : state) (b : shared_ptr) (q : Z) (blk : control_block) :
  s_cb b <> nullptr ->
  heap σ !! s_cb b = Some blk ->
  1 <= ref_count blk < SIZE_MAX ->
  exists m σ1 σ2 σ3,
    shared_ptr_alias b q σ = Ok m σ1 /\
    s_cb m = s_cb b /\ shared_ptr_get m = q /\
    heap σ1 !! s_cb b = Some (with_ref blk (ref_count blk + 1)) /\
    events σ1 = events σ /\
    shared_ptr_dtor b σ1 = Ok tt σ2 /\
    heap σ2 !! s_cb m = Some blk /\
    events σ2 = events σ /\
    shared_ptr_dtor m σ2 = Ok tt σ3 /\
    events σ3 = events σ ++ events_of_release_ref (s_cb b) blk /\
    destroyed (s_cb b) (events σ3) =
      (destroyed (s_cb b) (events σ) + (if (ref_count blk =? 1)%Z then 1 else 0))%nat.
Proof.
  destruct σ as [h e pl s w], b as [c p], blk as [r wk v].
  cbn [heap events s_cb ref_count]. intros Hnn Hblk Hr.
  set (b0 := ControlBlock r wk v) in *.
  set (b1 := with_ref b0 (size_t (ref_count b0 + 1))).
  assert (Hb1 : b1 = with_ref b0 (r + 1))
    by (unfold b1; cbn [ref_count b0]; rewrite size_t_id by lia; reflexivity).
  assert (H1 : <[c := b1]> h !! c = Some b1) by apply lookup_insert_eq.
  assert (Hsz : size_t (ref_count b1 - 1) = r).
  { rewrite Hb1. cbn [with_ref ref_count]. rewrite size_t_id by lia. lia. }
  assert (Hback : with_ref b1 r = b0) by reflexivity.
  assert (Hnz : (r =? 0) = false) by (apply Z.eqb_neq; lia).
  assert (H2 : <[c := b0]> h !! c = Some b0) by apply lookup_insert_eq.
  exists (SharedPtr c q), (State (<[c := b1]> h) e pl s w).
  exists (State (<[c := b0]> h) e pl s w).
  exists (State (heap_after_release_ref c b0 (<[c := b0]> h))
            (e ++ events_of_release_ref c b0) pl s w).
  cbn [heap events s_cb shared_ptr_get s_ptr].
  split; [apply (shared_ptr_alias_eq _ _ _ _ _ _ _ Hnn Hblk)|].
  split; [reflexivity|]. split; [reflexivity|].
  split; [rewrite H1, Hb1; reflexivity|]. split; [reflexivity|].
  split.
  { rewrite (shared_ptr_dtor_eq _ _ _ _ _ _ _ Hnn H1).
    unfold heap_after_release_ref, events_of_release_ref. rewrite Hsz, Hnz, Hback.
    cbn [andb app]. rewrite insert_insert_eq, app_nil_r. reflexivity. }
  split; [exact H2|]. split; [reflexivity|].
  split; [apply (shared_ptr_dtor_eq _ _ _ _ _ _ _ Hnn H2)|].
  split; [reflexivity|].
  rewrite destroyed_app, destroyed_release_ref, Z.eqb_refl, andb_true_r.
  cbn [ref_count b0]. rewrite size_t_id by lia.
  destruct (Z.eqb_spec (r - 1) 0), (Z.eqb_spec r 1); try lia; reflexivity.
Qed.

Lemma C8_aliasing_shares_ownership_witness :
  let blk := ControlBlock 1 0 (control_block_ptr 100 7%nat) in
  let σ := State {[1 := blk]} [EvNew 1] [] [] [] in
  s_cb (SharedPtr 1 100) <> nullptr /\
  heap σ !! s_cb (SharedPtr 1 100) = Some blk /\
  1 <= ref_count blk < SIZE_MAX /\
  exists m σ1 σ2 σ3,
    shared_ptr_alias (SharedPtr 1 100) 108 σ = Ok m σ1 /\
    s_cb m = 1 /\ shared_ptr_get m = 108 /\
    heap σ1 !! 1 = Some (with_ref blk 2) /\
    events σ1 = events σ /\
    shared_ptr_dtor (SharedPtr 1 100) σ1 = Ok tt σ2 /\
    heap σ2 !! s_cb m = Some blk /\
    events σ2 = events σ /\
    shared_ptr_dtor m σ2 = Ok tt σ3 /\
    events σ3 = events σ ++ events_of_release_ref 1 blk /\
    destroyed 1 (events σ3) = (destroyed 1 (events σ) + 1)%nat.
Proof.
  intros blk σ.
  assert (Hr : 1 <= ref_count blk < SIZE_MAX) by (unfold SIZE_MAX; simpl; lia).
  assert (Hn : s_cb (SharedPtr 1 100) <> nullptr) by (unfold nullptr; simpl; lia).
  split; [exact Hn|]. split; [reflexivity|]. split; [exact Hr|].
  exact (C8_aliasing_shares_ownership σ (SharedPtr 1 100) 108 blk Hn eq_refl Hr).
Defined.

(** Claim C9.  Assigning a handle object to itself, by copy or by move, returns
    with the state exactly as it was: the members of the handle, both
    counters of its block, the events (no payload destroyed, no block freed)
    and everything else.  The handle is assumed to hold the reference it
    stands for. *)
Theorem C9_self_assignment
    (σ : state) (i j : nat) (x : shared_ptr) (y : weak_ptr) :
  shared σ !! i = Some x -> holds_strong σ x = true ->
  weak σ !! j = Some y -> holds_weak σ y = true ->
  shared_ptr_assign_copy i i σ = Ok tt σ /\
  shared_ptr_assign_move i i σ = Ok tt σ /\
  weak_ptr_assign_copy j j σ = Ok tt σ /\
  weak_ptr_assign_move j j σ = Ok tt σ.
Proof.
  destruct σ as [h e pl S W], x as [c q], y as [c' q'].
  unfold holds_strong, holds_weak. cbn [shared weak heap s_cb w_cb].
  intros Hi Hx Hj Hy. split; [|split; [|split]].
  - unfold shared_ptr_assign_copy, bind, shared_ptr_swap.
    rewrite (read_shared_eq _ _ _ _ _ _ _ Hi). mstep.
    destruct (Z.eqb_spec c nullptr) as [-> | Hc].
    + rewrite shared_ptr_copy_null. mstep.
      rewrite (read_shared_eq _ _ _ _ _ _ _ Hi). mstep.
      rewrite (write_shared_eq _ _ _ _ _ _ _ _ Hi). cbn [s_cb s_ptr].
      rewrite shared_ptr_dtor_null, list_insert_id by exact Hi. reflexivity.
    + cbn [orb] in Hx. destruct (h !! c) as [b|] eqn:Hb; [|discriminate].
      apply andb_prop in Hx as [Hlo Hhi]. apply Z.leb_le in Hlo, Hhi.
      rewrite (shared_ptr_copy_eq _ _ _ _ _ _ _ Hc Hb). mstep.
      rewrite (read_shared_eq _ _ _ _ _ _ _ Hi). mstep.
      rewrite (write_shared_eq _ _ _ _ _ _ _ _ Hi). cbn [s_cb s_ptr].
      erewrite shared_ptr_dtor_eq by (try exact Hc; apply lookup_insert_eq).
      unfold heap_after_release_ref, events_of_release_ref. cbn [with_ref ref_count weak_count].
      rewrite size_t_succ_pred by lia.
      assert (Hnz : (ref_count b =? 0) = false) by (apply Z.eqb_neq; lia).
      rewrite Hnz. cbn [andb app]. rewrite insert_insert_eq, app_nil_r.
      rewrite list_insert_id by exact Hi.
      rewrite with_ref_back.
      rewrite insert_id by exact Hb. reflexivity.
  - unfold shared_ptr_assign_move. rewrite Nat.eqb_refl. reflexivity.
  - unfold weak_ptr_assign_copy, bind, weak_ptr_swap.
    rewrite (read_weak_eq _ _ _ _ _ _ _ Hj). mstep.
    destruct (Z.eqb_spec c' nullptr) as [-> | Hc].
    + rewrite weak_ptr_copy_null. mstep.
      rewrite (read_weak_eq _ _ _ _ _ _ _ Hj). mstep.
      rewrite (write_weak_eq _ _ _ _ _ _ _ _ Hj). cbn [w_cb w_ptr].
      rewrite weak_ptr_dtor_null, list_insert_id by exact Hj. reflexivity.
    + cbn [orb] in Hy. destruct (h !! c') as [b|] eqn:Hb; [|discriminate].
      apply andb_prop in Hy as [Hlo Hhi]. apply Z.leb_le in Hlo, Hhi.
      rewrite (weak_ptr_copy_eq _ _ _ _ _ _ _ Hc Hb). mstep.
      rewrite (read_weak_eq _ _ _ _ _ _ _ Hj). mstep.
      rewrite (write_weak_eq _ _ _ _ _ _ _ _ Hj). cbn [w_cb w_ptr].
      erewrite weak_ptr_dtor_eq by (try exact Hc; apply lookup_insert_eq).
      unfold heap_after_release_weak, events_of_release_weak.
      cbn [with_weak ref_count weak_count].
      rewrite size_t_succ_pred by lia.
      assert (Hnz : (weak_count b =? 0) = false) by (apply Z.eqb_neq; lia).
      rewrite Hnz, andb_false_r. rewrite insert_insert_eq, app_nil_r.
      rewrite list_insert_id by exact Hj.
      rewrite with_weak_back.
      rewrite insert_id by exact Hb. reflexivity.
  - unfold weak_ptr_assign_move. rewrite Nat.eqb_refl. reflexivity.
Qed.

Lemma C9_self_assignment_witness :
  let σ := State {[1 := ControlBlock 1 1 (control_block_ptr 100 7%nat)]} [EvNew 1] []
             [SharedPtr 1 100] [WeakPtr 1 100] in
  shared σ !! 0%nat = Some (SharedPtr 1 100) /\
  holds_strong σ (SharedPtr 1 100) = true /\
  weak σ !! 0%nat = Some (WeakPtr 1 100) /\
  holds_weak σ (WeakPtr 1 100) = true /\
  shared_ptr_assign_copy 0 0 σ = Ok tt σ /\
  shared_ptr_assign_move 0 0 σ = Ok tt σ /\
  weak_ptr_assign_copy 0 0 σ = Ok tt σ /\
  weak_ptr_assign_move 0 0 σ = Ok tt σ.
Proof.
  intros σ. repeat (split; [reflexivity|]).
  apply (C9_self_assignment σ 0 0 (SharedPtr 1 100) (WeakPtr 1 100)); reflexivity.
Defined.

(** Claim C10.  The truth value of a shared pointer and its comparison with
    [nullptr] depend on the stored payload pointer alone.  A shared pointer
    constructed from a null raw pointer, or aliasing a null pointer while
    sharing the block of an owner, counts at least one owner, tests false
    and compares equal to [nullptr]. *)
Theorem C10_truth_by_payload_pointer
    (σ σ0 : state) (d : deleter) (b : shared_ptr) (blk : control_block) :
  hd true (plan σ0) = true ->
  s_cb b <> nullptr ->
  heap σ !! s_cb b = Some blk ->
  1 <= ref_count blk < SIZE_MAX ->
  (forall p : shared_ptr,
     shared_ptr_bool p = negb (shared_ptr_get p =? nullptr) /\
     shared_ptr_eq_nullptr p = negb (shared_ptr_bool p) /\
     shared_ptr_ne_nullptr p = shared_ptr_bool p) /\
  (forall c c' q, shared_ptr_bool (SharedPtr c q) = shared_ptr_bool (SharedPtr c' q)) /\
  (exists n σ1,
     shared_ptr_from_raw nullptr d σ0 = Ok n σ1 /\
     shared_ptr_use_count n σ1 = Ok 1 σ1 /\
     shared_ptr_bool n = false /\ shared_ptr_eq_nullptr n = true) /\
  (exists m σ1,
     shared_ptr_alias b nullptr σ = Ok m σ1 /\
     shared_ptr_use_count m σ1 = Ok (ref_count blk + 1) σ1 /\
     shared_ptr_bool m = false /\ shared_ptr_eq_nullptr m = true).
Proof.
  intros Hpl Hnn Hblk Hrange. split; [|split; [|split]].
  - intros [c q]. unfold shared_ptr_bool, shared_ptr_eq_nullptr, shared_ptr_ne_nullptr,
      shared_ptr_get. cbn [s_ptr]. rewrite negb_involutive. repeat split.
  - reflexivity.
  - destruct σ0 as [h e pl s w]. cbn [plan] in Hpl.
    destruct (fresh_addr_spec h) as [Hf _].
    eexists _, _. split; [|split; [|split]].
    + rewrite shared_ptr_from_raw_eq. destruct pl as [|[] pl']; [reflexivity.. | discriminate].
    + apply (shared_ptr_use_count_eq _ _ _ _ _ _
               (ControlBlock 1 0 (control_block_ptr nullptr d)) Hf), lookup_insert_eq.
    + reflexivity.
    + reflexivity.
  - destruct σ as [h e pl s w], b as [c q]. cbn [heap s_cb] in *.
    eexists _, _. split; [|split; [|split]].
    + apply (shared_ptr_alias_eq _ _ _ _ _ _ _ Hnn Hblk).
    + rewrite (shared_ptr_use_count_eq _ _ _ _ _ _
                 (with_ref blk (size_t (ref_count blk + 1))) Hnn) by apply lookup_insert_eq.
      cbn [with_ref ref_count]. rewrite size_t_id by lia. reflexivity.
    + reflexivity.
    + reflexivity.
Qed.

Lemma C10_truth_by_payload_pointer_witness :
  let blk := ControlBlock 1 0 (control_block_ptr 100 7%nat) in
  let σ := State {[1 := blk]} [EvNew 1] [] [SharedPtr 1 100] [] in
  hd true (plan (init [])) = true /\
  s_cb (SharedPtr 1 100) <> nullptr /\
  heap σ !! s_cb (SharedPtr 1 100) = Some blk /\
  1 <= ref_count blk < SIZE_MAX /\
  (exists n σ1,
     shared_ptr_from_raw nullptr 7%nat (init []) = Ok n σ1 /\
     shared_ptr_use_count n σ1 = Ok 1 σ1 /\
     shared_ptr_bool n = false /\ shared_ptr_eq_nullptr n = true) /\
  (exists m σ1,
     shared_ptr_alias (SharedPtr 1 100) nullptr σ = Ok m σ1 /\
     shared_ptr_use_count m σ1 = Ok 2 σ1 /\
     shared_ptr_bool m = false /\ shared_ptr_eq_nullptr m = true).
Proof.
  intros blk σ.
  assert (Hr : 1 <= ref_count blk < SIZE_MAX) by (unfold SIZE_MAX; simpl; lia).
  assert (Hn : s_cb (SharedPtr 1 100) <> nullptr) by (unfold nullptr; simpl; lia).
  split; [reflexivity|]. split; [exact Hn|]. split; [reflexivity|]. split; [exact Hr|].
  pose proof (C10_truth_by_payload_pointer σ (init []) 7%nat (SharedPtr 1 100) blk
                eq_refl Hn eq_refl Hr) as H.
  destruct H as (_ & _ & H1 & H2). split; [exact H1 | exact H2].
Defined.

(** ** The example scenario of the specification

    [p = construct(new int(5))], [q = copy(p)], [w = weak_from(q)],
    [p.reset(); q.reset()]: the counts are 1, then 2 and 2; [w] is not
    expired while an owner exists; after both resets the payload has been
    freed once, [w] is expired and [w.lock()] is empty. *)
Example spec_scenario :
  let tr1 := [OpNew 500 0%nat] in
  let tr2 := tr1 ++ [OpCopy 0; OpWeak 1] in
  let tr3 := tr2 ++ [OpReset 0; OpReset 1] in
  exists σ1 σ2 σ3,
    run tr1 (init []) = Ok tt σ1 /\
    shared_ptr_use_count (SharedPtr 1 500) σ1 = Ok 1 σ1 /\
    run tr2 (init []) = Ok tt σ2 /\
    shared σ2 = [SharedPtr 1 500; SharedPtr 1 500] /\
    shared_ptr_use_count (SharedPtr 1 500) σ2 = Ok 2 σ2 /\
    weak_ptr_expired (WeakPtr 1 500) σ2 = Ok false σ2 /\
    run tr3 (init []) = Ok tt σ3 /\
    shared σ3 = [shared_ptr_default; shared_ptr_default] /\
    events σ3 = [EvNew 1; EvDeleteObject 1; EvDeleter 0%nat 500] /\
    weak_ptr_expired (WeakPtr 1 500) σ3 = Ok true σ3 /\
    weak_ptr_lock (WeakPtr 1 500) σ3 = Ok shared_ptr_default σ3.
Proof.
  intros tr1 tr2 tr3. eexists _, _, _.
  split; [vm_compute; reflexivity|]. split; [vm_compute; reflexivity|].
  split; [vm_compute; reflexivity|]. split; [reflexivity|].
  split; [vm_compute; reflexivity|]. split; [vm_compute; reflexivity|].
  split; [vm_compute; reflexivity|]. split; [reflexivity|].
  split; [reflexivity|]. split; vm_compute; reflexivity.
Qed.

(** * Further properties of the code *)

(** ** Carrying a property along a computation *)

Lemma keeps_ret {A} (P : state -> Prop) (a : A) : keeps P (ret a).
Proof. intros σ HP. exact HP. Qed.

Lemma keeps_throw {A} (P : state -> Prop) (x : exn) : keeps P (@throw A x).
Proof. intros σ HP. exact HP. Qed.

Lemma keeps_bind {A B} (P : state -> Prop) (m : M A) (k : A -> M B) :
  keeps P m -> (forall a, keeps P (k a)) -> keeps P (bind m k).
Proof.
  intros Hm Hk σ HP. unfold bind. specialize (Hm σ HP).
  destruct (m σ) as [a σ' | x σ' |]; [apply Hk, Hm | exact Hm | exact I].
Qed.

Lemma keeps_try_catch {A} (P : state -> Prop) (m : M A) (hd : exn -> M A) :
  keeps P m -> (forall x, keeps P (hd x)) -> keeps P (try_catch m hd).
Proof.
  intros Hm Hh σ HP. unfold try_catch. specialize (Hm σ HP).
  destruct (m σ) as [a σ' | x σ' |]; [exact Hm | apply Hh, Hm | exact I].
Qed.

Lemma keeps_load (P : state -> Prop) bl : keeps P (load bl).
Proof. intros σ HP. unfold load. destruct (heap σ !! bl); [exact HP | exact I]. Qed.

Lemma keeps_read_shared (P : state -> Prop) i : keeps P (read_shared i).
Proof. intros σ HP. unfold read_shared. destruct (shared σ !! i); [exact HP | exact I]. Qed.

Lemma keeps_read_weak (P : state -> Prop) j : keeps P (read_weak j).
Proof. intros σ HP. unfold read_weak. destruct (weak σ !! j); [exact HP | exact I]. Qed.

Ltac keeps_step :=
  first
    [ solve [auto]
    | apply keeps_ret
    | apply keeps_throw
    | apply keeps_load
    | apply keeps_read_shared
    | apply keeps_read_weak
    | apply keeps_bind; [|intros]
    | apply keeps_try_catch; [|intros]
    | match goal with
      | |- keeps _ (if ?c then _ else _) => destruct c
      | |- keeps _ (match ?c with _ => _ end) => destruct c
      end ].

Ltac keeps_auto := repeat keeps_step.

Section Keeping.
Variable P : state -> Prop.

(** What [P] must survive: a counter update, changes of the handle stores,
    the events of a payload destruction, the release of a block, the
    creation of a block, a direct call of a deleter. *)
Hypothesis P_store : forall bl b, keeps P (store bl b).
Hypothesis P_shared : forall f σ, P σ -> P (set_shared f σ).
Hypothesis P_weak : forall f σ, P σ -> P (set_weak f σ).
Hypothesis P_delete_object : forall bl, keeps P (delete_object bl).
Hypothesis P_delete_cb : forall bl, keeps P (delete_cb bl).
Hypothesis P_new_ptr : forall p d, keeps P (new_control_block_ptr p d).
Hypothesis P_new_obj : forall A args, keeps P (new_control_block_obj A args).
Hypothesis P_deleter : forall d p, keeps P (log (EvDeleter d p)).

Lemma keeps_write_shared i x : keeps P (write_shared i x).
Proof.
  intros σ HP. unfold write_shared. destruct (shared σ !! i); [|exact I].
  apply P_shared, HP.
Qed.

Lemma keeps_write_weak j y : keeps P (write_weak j y).
Proof.
  intros σ HP. unfold write_weak. destruct (weak σ !! j); [|exact I].
  apply P_weak, HP.
Qed.

Lemma keeps_push_shared x : keeps P (push_shared x).
Proof. intros σ HP. apply P_shared, HP. Qed.

Lemma keeps_drop_shared i : keeps P (drop_shared i).
Proof. intros σ HP. apply P_shared, HP. Qed.

Lemma keeps_push_weak y : keeps P (push_weak y).
Proof. intros σ HP. apply P_weak, HP. Qed.

Lemma keeps_drop_weak j : keeps P (drop_weak j).
Proof. intros σ HP. apply P_weak, HP. Qed.

Hint Resolve keeps_write_shared keeps_write_weak keeps_push_shared keeps_drop_shared
  keeps_push_weak keeps_drop_weak : core.

Lemma keeps_add_ref bl : keeps P (add_ref bl).
Proof. unfold add_ref. keeps_auto. Qed.

Lemma keeps_add_weak bl : keeps P (add_weak bl).
Proof. unfold add_weak. keeps_auto. Qed.

Lemma keeps_release_weak bl : keeps P (release_weak bl).
Proof. unfold release_weak. keeps_auto. Qed.

Lemma keeps_release_ref bl : keeps P (release_ref bl).
Proof. unfold release_ref. keeps_auto. Qed.

Lemma keeps_cb_use_count bl : keeps P (cb_use_count bl).
Proof. unfold cb_use_count. keeps_auto. Qed.

Lemma keeps_cb_weak_use_count bl : keeps P (cb_weak_use_count bl).
Proof. unfold cb_weak_use_count. keeps_auto. Qed.

Hint Resolve keeps_add_ref keeps_add_weak keeps_release_weak keeps_release_ref
  keeps_cb_use_count keeps_cb_weak_use_count : core.

Lemma keeps_shared_ptr_copy x : keeps P (shared_ptr_copy x).
Proof. unfold shared_ptr_copy. keeps_auto. Qed.

Lemma keeps_shared_ptr_alias x q : keeps P (shared_ptr_alias x q).
Proof. unfold shared_ptr_alias. keeps_auto. Qed.

Lemma keeps_shared_ptr_from_weak y : keeps P (shared_ptr_from_weak y).
Proof. unfold shared_ptr_from_weak. keeps_auto. Qed.

Lemma keeps_shared_ptr_from_raw p d : keeps P (shared_ptr_from_raw p d).
Proof. unfold shared_ptr_from_raw. keeps_auto. Qed.

Lemma keeps_make_shared A args : keeps P (make_shared A args).
Proof. unfold make_shared. keeps_auto. Qed.

Lemma keeps_shared_ptr_dtor x : keeps P (shared_ptr_dtor x).
Proof. unfold shared_ptr_dtor. keeps_auto. Qed.

Lemma keeps_weak_ptr_copy y : keeps P (weak_ptr_copy y).
Proof. unfold weak_ptr_copy. keeps_auto. Qed.

Lemma keeps_weak_ptr_from_shared x : keeps P (weak_ptr_from_shared x).
Proof. unfold weak_ptr_from_shared. keeps_auto. Qed.

Lemma keeps_weak_ptr_dtor y : keeps P (weak_ptr_dtor y).
Proof. unfold weak_ptr_dtor. keeps_auto. Qed.

Hint Resolve keeps_shared_ptr_copy keeps_shared_ptr_alias keeps_shared_ptr_from_weak
  keeps_shared_ptr_from_raw keeps_make_shared keeps_shared_ptr_dtor
  keeps_weak_ptr_copy keeps_weak_ptr_from_shared keeps_weak_ptr_dtor : core.

Lemma keeps_weak_ptr_lock y : keeps P (weak_ptr_lock y).
Proof.
  unfold weak_ptr_lock, weak_ptr_expired, weak_ptr_use_count. keeps_auto.
Qed.

Lemma keeps_shared_ptr_reset x : keeps P (shared_ptr_reset x).
Proof. unfold shared_ptr_reset, shared_ptr_swap. keeps_auto. Qed.

Lemma keeps_shared_ptr_assign_copy i k : keeps P (shared_ptr_assign_copy i k).
Proof. unfold shared_ptr_assign_copy, shared_ptr_swap. keeps_auto. Qed.

Lemma keeps_shared_ptr_assign_move i k : keeps P (shared_ptr_assign_move i k).
Proof. unfold shared_ptr_assign_move, shared_ptr_move, shared_ptr_swap. keeps_auto. Qed.

Lemma keeps_weak_ptr_assign_copy j k : keeps P (weak_ptr_assign_copy j k).
Proof. unfold weak_ptr_assign_copy, weak_ptr_swap. keeps_auto. Qed.

Lemma keeps_weak_ptr_assign_move j k : keeps P (weak_ptr_assign_move j k).
Proof. unfold weak_ptr_assign_move, weak_ptr_move, weak_ptr_swap. keeps_auto. Qed.

Hint Resolve keeps_weak_ptr_lock keeps_shared_ptr_reset keeps_shared_ptr_assign_copy
  keeps_shared_ptr_assign_move keeps_weak_ptr_assign_copy keeps_weak_ptr_assign_move : core.

Lemma keeps_exec_weak o : is_weak_stmt o = true -> keeps P (exec o).
Proof.
  destruct o; try discriminate; intros _; unfold exec, weak_ptr_move; keeps_auto.
Qed.


End Keeping.

(** ** Three properties that are carried along *)


Ltac open_state σ :=
  destruct σ as [h e pl S W];
  unfold set_heap, set_events, set_plan, set_shared, set_weak;
  cbn [heap events plan shared weak] in *.

(** *** No block at the null address *)








(** *** Allocations and deallocations balance *)








(** *** Weak pointers log no payload destruction *)

Lemma destroyed_is_store bl n c b : keeps (destroyed_is bl n) (store c b).
Proof.
  intros σ HP. unfold store. destruct (heap σ !! c); [exact HP | exact I].
Qed.

Lemma destroyed_is_delete_cb bl n c : keeps (destroyed_is bl n) (delete_cb c).
Proof.
  intros σ HP. unfold delete_cb, bind, load, operator_delete, log.
  destruct (heap σ !! c); [|exact I].
  unfold destroyed_is in *. open_state σ.
  rewrite destroyed_app, HP. unfold destroyed at 1. cbn. lia.
Qed.

(** ** [make_shared] *)

(** X1.  When the allocation succeeds and the payload constructor returns,
    [make_shared] allocates one block, constructs the payload once in the
    storage of that block with the arguments as given, and returns a handle
    with [use_count() = 1] whose pointer is that storage; destroying the
    handle runs the payload destructor once on that storage and then frees
    the block, which restores the heap. *)
Theorem make_shared_lifecycle (A : payload_class) (args : list Z) (σ : state) :
  ctor_throws A args = None ->
  hd true (plan σ) = true ->
  exists bl σ1 σ2,
    bl <> nullptr /\ heap σ !! bl = None /\
    make_shared A args σ = Ok (SharedPtr bl (data_addr bl)) σ1 /\
    events σ1 = events σ ++ [EvNew bl; EvConstruct (data_addr bl) args] /\
    shared_ptr_use_count (SharedPtr bl (data_addr bl)) σ1 = Ok 1 σ1 /\
    shared_ptr_dtor (SharedPtr bl (data_addr bl)) σ1 = Ok tt σ2 /\
    events σ2 = events σ1 ++ [EvDeleteObject bl; EvDestroy (data_addr bl); EvDelete bl] /\
    heap σ2 = heap σ.
Proof.
  destruct σ as [h e pl s w]. cbn [plan heap events]. intros Hctor Hpl.
  destruct (fresh_addr_spec h) as [Hnn Hfree]. set (bl := fresh_addr h) in *.
  set (b1 := ControlBlock 1 0 control_block_obj).
  assert (H1 : <[bl := b1]> h !! bl = Some b1) by apply lookup_insert_eq.
  exists bl, (State (<[bl := b1]> h) (e ++ [EvNew bl; EvConstruct (data_addr bl) args])
                (tail pl) s w).
  eexists. split; [exact Hnn|]. split; [exact Hfree|].
  split.
  { rewrite make_shared_eq, Hctor. destruct pl as [|[] pl']; [reflexivity.. | discriminate]. }
  split; [reflexivity|].
  split; [apply (shared_ptr_use_count_eq _ _ _ _ _ _ _ Hnn H1)|].
  split; [apply (shared_ptr_dtor_eq _ _ _ _ _ _ _ Hnn H1)|].
  unfold heap_after_release_ref, events_of_release_ref.
  change (size_t (ref_count b1 - 1)) with 0. cbn.
  split; [reflexivity|]. rewrite delete_insert_eq, delete_id by exact Hfree. reflexivity.
Qed.

Lemma make_shared_lifecycle_witness :
  let A := PayloadClass (fun _ => None) in
  ctor_throws A [4; 2] = None /\
  hd true (plan (init [])) = true /\
  exists bl σ1 σ2,
    bl <> nullptr /\ heap (init []) !! bl = None /\
    make_shared A [4; 2] (init []) = Ok (SharedPtr bl (data_addr bl)) σ1 /\
    events σ1 = events (init []) ++ [EvNew bl; EvConstruct (data_addr bl) [4; 2]] /\
    shared_ptr_use_count (SharedPtr bl (data_addr bl)) σ1 = Ok 1 σ1 /\
    shared_ptr_dtor (SharedPtr bl (data_addr bl)) σ1 = Ok tt σ2 /\
    events σ2 = events σ1 ++ [EvDeleteObject bl; EvDestroy (data_addr bl); EvDelete bl] /\
    heap σ2 = heap (init []).
Proof.
  intros A. split; [reflexivity|]. split; [reflexivity|].
  apply (make_shared_lifecycle A [4; 2] (init [])); reflexivity.
Defined.

(** X2.  When the allocation fails, [make_shared] throws [bad_alloc] without
    running the payload constructor: nothing is logged and the heap is as
    before. *)
Theorem make_shared_allocation_failure
    (A : payload_class) (args : list Z) (σ : state) (pl' : list bool) :
  plan σ = false :: pl' ->
  make_shared A args σ =
  Throw bad_alloc (State (heap σ) (events σ) pl' (shared σ) (weak σ)).
Proof.
  destruct σ as [h e pl s w]. cbn [plan heap events shared weak]. intros ->.
  rewrite make_shared_eq. reflexivity.
Qed.

Lemma make_shared_allocation_failure_witness :
  let A := PayloadClass (fun _ => None) in
  plan (init [false; true]) = [false; true] /\
  make_shared A [4; 2] (init [false; true]) = Throw bad_alloc (init [true]).
Proof.
  intros A. split; [reflexivity|].
  apply (make_shared_allocation_failure A [4; 2] (init [false; true]) [true]). reflexivity.
Defined.

(** ** Weak pointers and the lifetime of the block *)

(** X3.  A weak pointer made from the only owner of a block raises the weak
    count to 1 and leaves the strong count at 1; it is not expired.  When
    the owner is destroyed the payload is destroyed but the block stays
    allocated with counts 0 and 1, and the weak pointer is expired; the
    block is freed when the weak pointer is destroyed, and only then. *)
Theorem weak_ptr_outlives_payload (σ : state) (s : shared_ptr) (blk : control_block) :
  s_cb s <> nullptr ->
  heap σ !! s_cb s = Some blk ->
  ref_count blk = 1 -> weak_count blk = 0 ->
  let c := s_cb s in
  let w := WeakPtr (s_cb s) (s_ptr s) in
  exists σ1 σ2 σ3,
    weak_ptr_from_shared s σ = Ok w σ1 /\
    events σ1 = events σ /\
    heap σ1 !! c = Some (ControlBlock 1 1 (variant blk)) /\
    weak_ptr_use_count w σ1 = Ok 1 σ1 /\
    weak_ptr_expired w σ1 = Ok false σ1 /\
    shared_ptr_dtor s σ1 = Ok tt σ2 /\
    events σ2 = events σ ++ EvDeleteObject c :: payload_events c (variant blk) /\
    heap σ2 !! c = Some (ControlBlock 0 1 (variant blk)) /\
    weak_ptr_expired w σ2 = Ok true σ2 /\
    weak_ptr_dtor w σ2 = Ok tt σ3 /\
    events σ3 = events σ2 ++ [EvDelete c] /\
    heap σ3 = delete c (heap σ).
Proof.
  destruct σ as [h e pl S W], s as [c q], blk as [r wk v].
  cbn [heap events s_cb s_ptr ref_count weak_count variant].
  intros Hnn Hblk -> ->.
  set (b0 := ControlBlock 1 0 v) in *.
  set (b1 := ControlBlock 1 1 v).
  set (b2 := ControlBlock 0 1 v).
  assert (H1 : <[c := b1]> h !! c = Some b1) by apply lookup_insert_eq.
  assert (H2 : <[c := b2]> h !! c = Some b2) by apply lookup_insert_eq.
  exists (State (<[c := b1]> h) e pl S W).
  exists (State (<[c := b2]> h) (e ++ EvDeleteObject c :: payload_events c v) pl S W).
  exists (State (delete c h) ((e ++ EvDeleteObject c :: payload_events c v) ++ [EvDelete c])
            pl S W).
  cbn [heap events].
  split; [apply (weak_ptr_from_shared_eq _ _ _ _ _ _ _ Hnn Hblk)|].
  split; [reflexivity|]. split; [exact H1|].
  split; [apply (weak_ptr_use_count_eq _ _ _ _ _ _ _ Hnn H1)|].
  split; [apply (weak_ptr_expired_eq _ _ _ _ _ _ _ Hnn H1)|].
  split.
  { rewrite (shared_ptr_dtor_eq _ _ _ _ _ _ _ Hnn H1).
    unfold heap_after_release_ref, events_of_release_ref.
    change (size_t (ref_count b1 - 1)) with 0. change (weak_count b1) with 1.
    cbn [Z.eqb andb]. rewrite insert_insert_eq, app_nil_r. reflexivity. }
  split; [reflexivity|]. split; [exact H2|].
  split; [apply (weak_ptr_expired_eq _ _ _ _ _ _ _ Hnn H2)|].
  split.
  { rewrite (weak_ptr_dtor_eq _ _ _ _ _ _ _ Hnn H2).
    unfold heap_after_release_weak, events_of_release_weak.
    change (size_t (weak_count b2 - 1)) with 0. change (ref_count b2) with 0.
    cbn [Z.eqb andb]. rewrite delete_insert_eq. reflexivity. }
  split; reflexivity.
Qed.

Lemma weak_ptr_outlives_payload_witness :
  let blk := ControlBlock 1 0 (control_block_ptr 100 7%nat) in
  let σ := State {[1 := blk]} [EvNew 1] [] [] [] in
  let s := SharedPtr 1 100 in
  s_cb s <> nullptr /\ heap σ !! s_cb s = Some blk /\
  ref_count blk = 1 /\ weak_count blk = 0 /\
  exists σ1 σ2 σ3,
    weak_ptr_from_shared s σ = Ok (WeakPtr 1 100) σ1 /\
    events σ1 = events σ /\
    heap σ1 !! 1 = Some (ControlBlock 1 1 (variant blk)) /\
    weak_ptr_use_count (WeakPtr 1 100) σ1 = Ok 1 σ1 /\
    weak_ptr_expired (WeakPtr 1 100) σ1 = Ok false σ1 /\
    shared_ptr_dtor s σ1 = Ok tt σ2 /\
    events σ2 = events σ ++ EvDeleteObject 1 :: payload_events 1 (variant blk) /\
    heap σ2 !! 1 = Some (ControlBlock 0 1 (variant blk)) /\
    weak_ptr_expired (WeakPtr 1 100) σ2 = Ok true σ2 /\
    weak_ptr_dtor (WeakPtr 1 100) σ2 = Ok tt σ3 /\
    events σ3 = events σ2 ++ [EvDelete 1] /\
    heap σ3 = delete 1 (heap σ).
Proof.
  intros blk σ s.
  assert (Hn : s_cb s <> nullptr) by (unfold nullptr; simpl; lia).
  split; [exact Hn|]. split; [reflexivity|]. split; [reflexivity|]. split; [reflexivity|].
  exact (weak_ptr_outlives_payload σ s blk Hn eq_refl eq_refl eq_refl).
Defined.

(** ** Copies, counters and empty handles *)

(** X4.  Copying a handle (or aliasing it) and destroying the copy leaves
    the state exactly as it was, for shared and for weak pointers: the
    reference added is the reference released, and nothing is destroyed. *)
Theorem copy_then_destroy_restores (σ : state) (x : shared_ptr) (y : weak_ptr) (q : Z) :
  holds_strong σ x = true ->
  holds_weak σ y = true ->
  (exists σ1, shared_ptr_copy x σ = Ok x σ1 /\ shared_ptr_dtor x σ1 = Ok tt σ) /\
  (exists σ1, shared_ptr_alias x q σ = Ok (SharedPtr (s_cb x) q) σ1 /\
              shared_ptr_dtor (SharedPtr (s_cb x) q) σ1 = Ok tt σ) /\
  (exists σ1, weak_ptr_copy y σ = Ok y σ1 /\ weak_ptr_dtor y σ1 = Ok tt σ).
Proof.
  destruct σ as [h e pl S W], x as [c p], y as [c' p'].
  unfold holds_strong, holds_weak. cbn [heap s_cb w_cb]. intros Hx Hy.
  assert (Hs : forall p2,
    exists σ1, (if c =? nullptr then ret tt else add_ref c) (State h e pl S W) = Ok tt σ1 /\
               shared_ptr_dtor (SharedPtr c p2) σ1 = Ok tt (State h e pl S W)).
  { intros p2. destruct (Z.eqb_spec c nullptr) as [-> | Hc].
    - eexists. split; reflexivity.
    - cbn [orb] in Hx. destruct (h !! c) as [b|] eqn:Hb; [|discriminate].
      apply andb_prop in Hx as [Hlo Hhi]. apply Z.leb_le in Hlo, Hhi.
      eexists. split; [apply (add_ref_eq _ _ _ _ _ _ _ Hb)|].
      erewrite shared_ptr_dtor_eq by (try exact Hc; apply lookup_insert_eq).
      unfold heap_after_release_ref, events_of_release_ref.
      cbn [with_ref ref_count weak_count]. rewrite size_t_succ_pred by lia.
      assert (Hnz : (ref_count b =? 0) = false) by (apply Z.eqb_neq; lia).
      rewrite Hnz. cbn [andb app]. rewrite insert_insert_eq, app_nil_r.
      rewrite with_ref_back, insert_id by exact Hb. reflexivity. }
  split; [|split].
  - destruct (Hs p) as (σ1 & Ha & Hd). exists σ1.
    unfold shared_ptr_copy, bind. cbn [s_cb s_ptr]. rewrite Ha. split; [reflexivity | exact Hd].
  - destruct (Hs q) as (σ1 & Ha & Hd). exists σ1.
    unfold shared_ptr_alias, bind. cbn [s_cb s_ptr]. rewrite Ha. split; [reflexivity | exact Hd].
  - destruct (Z.eqb_spec c' nullptr) as [-> | Hc].
    + eexists. split; reflexivity.
    + cbn [orb] in Hy. destruct (h !! c') as [b|] eqn:Hb; [|discriminate].
      apply andb_prop in Hy as [Hlo Hhi]. apply Z.leb_le in Hlo, Hhi.
      eexists. split; [apply (weak_ptr_copy_eq _ _ _ _ _ _ _ Hc Hb)|].
      erewrite weak_ptr_dtor_eq by (try exact Hc; apply lookup_insert_eq).
      unfold heap_after_release_weak, events_of_release_weak.
      cbn [with_weak ref_count weak_count]. rewrite size_t_succ_pred by lia.
      assert (Hnz : (weak_count b =? 0) = false) by (apply Z.eqb_neq; lia).
      rewrite Hnz, andb_false_r. rewrite insert_insert_eq, app_nil_r.
      rewrite with_weak_back, insert_id by exact Hb. reflexivity.
Qed.

Lemma copy_then_destroy_restores_witness :
  let σ := State {[1 := ControlBlock 2 1 (control_block_ptr 100 7%nat)]} [EvNew 1] []
             [SharedPtr 1 100; SharedPtr 1 100] [WeakPtr 1 100] in
  holds_strong σ (SharedPtr 1 100) = true /\
  holds_weak σ (WeakPtr 1 100) = true /\
  (exists σ1, shared_ptr_copy (SharedPtr 1 100) σ = Ok (SharedPtr 1 100) σ1 /\
              shared_ptr_dtor (SharedPtr 1 100) σ1 = Ok tt σ) /\
  (exists σ1, shared_ptr_alias (SharedPtr 1 100) 104 σ = Ok (SharedPtr 1 104) σ1 /\
              shared_ptr_dtor (SharedPtr 1 104) σ1 = Ok tt σ) /\
  (exists σ1, weak_ptr_copy (WeakPtr 1 100) σ = Ok (WeakPtr 1 100) σ1 /\
              weak_ptr_dtor (WeakPtr 1 100) σ1 = Ok tt σ).
Proof.
  intros σ. split; [reflexivity|]. split; [reflexivity|].
  apply (copy_then_destroy_restores σ (SharedPtr 1 100) (WeakPtr 1 100) 104); reflexivity.
Defined.

(** X5.  The strong counter is plain [size_t] arithmetic.  [release_ref]
    calls [delete_object] exactly when the counter was 1; on a counter that
    is already 0 it wraps to [SIZE_MAX] and destroys nothing.  [add_ref] on
    [SIZE_MAX] wraps to 0, and logs nothing. *)
Theorem strong_counter_wraps (σ : state) (c : Z) (b : control_block) :
  heap σ !! c = Some b ->
  0 <= ref_count b <= SIZE_MAX ->
  release_ref c σ =
    Ok tt (State
      (<[c := with_ref b (if ref_count b =? 0 then SIZE_MAX else ref_count b - 1)]> (heap σ))
      (events σ ++
         (if ref_count b =? 1 then EvDeleteObject c :: payload_events c (variant b) else []))
      (plan σ) (shared σ) (weak σ)) /\
  add_ref c σ =
    Ok tt (State
      (<[c := with_ref b (if ref_count b =? SIZE_MAX then 0 else ref_count b + 1)]> (heap σ))
      (events σ) (plan σ) (shared σ) (weak σ)).
Proof.
  destruct σ as [h e pl S W]. cbn [heap events plan shared weak]. intros Hb Hr.
  rewrite (release_ref_eq _ _ _ _ _ _ _ Hb), (add_ref_eq _ _ _ _ _ _ _ Hb).
  assert (Hdec : size_t (ref_count b - 1) =
                 if ref_count b =? 0 then SIZE_MAX else ref_count b - 1).
  { destruct (Z.eqb_spec (ref_count b) 0) as [-> | Hne]; [reflexivity|].
    apply size_t_id. lia. }
  assert (Hinc : size_t (ref_count b + 1) =
                 if ref_count b =? SIZE_MAX then 0 else ref_count b + 1).
  { destruct (Z.eqb_spec (ref_count b) SIZE_MAX) as [-> | Hne]; [reflexivity|].
    apply size_t_id. lia. }
  rewrite Hdec, Hinc. split; [|reflexivity].
  destruct (Z.eqb_spec (ref_count b) 0) as [Hz | Hnz].
  - rewrite Hz. cbn. rewrite app_nil_r. reflexivity.
  - destruct (Z.eqb_spec (ref_count b) 1) as [H1 | Hn1].
    + rewrite H1. reflexivity.
    + destruct (Z.eqb_spec (ref_count b - 1) 0); [lia|]. rewrite app_nil_r. reflexivity.
Qed.

Lemma strong_counter_wraps_witness :
  let b := ControlBlock 0 1 (control_block_ptr 100 7%nat) in
  let σ := State {[1 := b]} [] [] [] [WeakPtr 1 100] in
  heap σ !! 1 = Some b /\ 0 <= ref_count b <= SIZE_MAX /\
  release_ref 1 σ =
    Ok tt (State {[1 := ControlBlock SIZE_MAX 1 (control_block_ptr 100 7%nat)]}
             [] [] [] [WeakPtr 1 100]) /\
  add_ref 1 σ =
    Ok tt (State {[1 := ControlBlock 1 1 (control_block_ptr 100 7%nat)]}
             [] [] [] [WeakPtr 1 100]).
Proof.
  intros b σ.
  assert (Hr : 0 <= ref_count b <= SIZE_MAX) by (unfold SIZE_MAX; simpl; lia).
  split; [reflexivity|]. split; [exact Hr|].
  exact (strong_counter_wraps σ 1 b eq_refl Hr).
Defined.

(** X6.  A handle whose control-block pointer is null never reads the heap:
    copying, aliasing, upgrading, locking, resetting or destroying it, and
    asking for its count, return in any state whatever and leave that state
    unchanged. *)
Theorem empty_handles_touch_nothing (q q' : Z) (σ : state) :
  shared_ptr_copy (SharedPtr nullptr q) σ = Ok (SharedPtr nullptr q) σ /\
  shared_ptr_alias (SharedPtr nullptr q) q' σ = Ok (SharedPtr nullptr q') σ /\
  shared_ptr_use_count (SharedPtr nullptr q) σ = Ok 0 σ /\
  shared_ptr_reset (SharedPtr nullptr q) σ = Ok shared_ptr_default σ /\
  shared_ptr_dtor (SharedPtr nullptr q) σ = Ok tt σ /\
  shared_ptr_dtor shared_ptr_default σ = Ok tt σ /\
  shared_ptr_dtor shared_ptr_nullptr σ = Ok tt σ /\
  weak_ptr_from_shared (SharedPtr nullptr q) σ = Ok (WeakPtr nullptr q) σ /\
  shared_ptr_from_weak (WeakPtr nullptr q) σ = Ok (SharedPtr nullptr q) σ /\
  weak_ptr_copy (WeakPtr nullptr q) σ = Ok (WeakPtr nullptr q) σ /\
  weak_ptr_use_count (WeakPtr nullptr q) σ = Ok 0 σ /\
  weak_ptr_lock (WeakPtr nullptr q) σ = Ok shared_ptr_default σ /\
  weak_ptr_dtor (WeakPtr nullptr q) σ = Ok tt σ /\
  weak_ptr_dtor weak_ptr_default σ = Ok tt σ.
Proof. repeat split. Qed.

(** X7.  [operator==] on shared pointers compares the stored payload
    pointers and nothing else: it is reflexive, symmetric and transitive,
    [operator!=] is its negation, the control-block pointers play no part,
    and comparing with [nullptr] is comparing with an empty handle. *)
Theorem shared_ptr_eq_is_pointer_identity (a b c : shared_ptr) (cb1 cb2 : Z) :
  shared_ptr_eq a a = true /\
  shared_ptr_eq a b = shared_ptr_eq b a /\
  implb (shared_ptr_eq a b && shared_ptr_eq b c) (shared_ptr_eq a c) = true /\
  shared_ptr_ne a b = negb (shared_ptr_eq a b) /\
  (shared_ptr_eq a b = true <-> shared_ptr_get a = shared_ptr_get b) /\
  shared_ptr_eq (SharedPtr cb1 (s_ptr a)) (SharedPtr cb2 (s_ptr b)) = shared_ptr_eq a b /\
  shared_ptr_eq_nullptr a = shared_ptr_eq a shared_ptr_default /\
  shared_ptr_ne_nullptr a = shared_ptr_ne a shared_ptr_nullptr.
Proof.
  unfold shared_ptr_eq, shared_ptr_ne, shared_ptr_eq_nullptr, shared_ptr_ne_nullptr,
    shared_ptr_get. cbn [s_ptr shared_ptr_default shared_ptr_nullptr].
  split; [apply Z.eqb_refl|]. split; [apply Z.eqb_sym|].
  split.
  { destruct (Z.eqb_spec (s_ptr a) (s_ptr b)), (Z.eqb_spec (s_ptr b) (s_ptr c)),
      (Z.eqb_spec (s_ptr a) (s_ptr c)); try reflexivity; congruence. }
  split; [reflexivity|]. split; [apply Z.eqb_eq|]. repeat split.
Qed.

(** ** Destructors, [reset] and [swap] *)

Lemma lookup_heap_after_release_ref c b h a :
  a <> c -> heap_after_release_ref c b h !! a = h !! a.
Proof.
  intros Hne. unfold heap_after_release_ref.
  destruct ((size_t (ref_count b - 1) =? 0) && (weak_count b =? 0));
    [apply lookup_delete_ne | apply lookup_insert_ne]; congruence.
Qed.


(** What a destructor that returns has left alone. *)
Lemma shared_ptr_dtor_frame x σ σ' :
  shared_ptr_dtor x σ = Ok tt σ' ->
  shared σ' = shared σ /\ weak σ' = weak σ /\ plan σ' = plan σ /\
  forall a, a <> s_cb x ->
    heap σ' !! a = heap σ !! a /\
    destroyed a (events σ') = destroyed a (events σ) /\
    freed a (events σ') = freed a (events σ).
Proof.
  destruct σ as [h e pl S W], x as [c q]. cbn [s_cb shared weak plan heap events].
  destruct (decide (c = nullptr)) as [-> | Hc].
  - rewrite shared_ptr_dtor_null. intros [= <-]. repeat split.
  - destruct (h !! c) as [b|] eqn:Hb.
    + rewrite (shared_ptr_dtor_eq _ _ _ _ _ _ _ Hc Hb). intros [= <-].
      cbn [shared weak plan heap events]. split; [reflexivity|].
      split; [reflexivity|]. split; [reflexivity|]. intros a Ha.
      rewrite lookup_heap_after_release_ref by exact Ha.
      rewrite destroyed_app, freed_app, destroyed_release_ref, freed_release_ref.
      destruct (Z.eqb_spec c a); [congruence|]. rewrite !andb_false_r.
      repeat split; lia.
    + unfold shared_ptr_dtor, release_ref, bind, load. cbn [s_cb].
      rewrite (proj2 (Z.eqb_neq c nullptr) Hc). cbn [heap]. rewrite Hb. discriminate.
Qed.




(** X9.  [s.reset()] does to the heap and to the events exactly what the
    destructor of [s] does, and leaves the object [s] empty; where the
    destructor is undefined, so is [reset]. *)
Theorem reset_is_destroy_then_empty (σ : state) (i : nat) (x : shared_ptr) :
  shared σ !! i = Some x ->
  exec (OpReset i) σ =
  match shared_ptr_dtor x σ with
  | Ok _ σd => Ok tt (set_shared (fun l => <[i := shared_ptr_default]> l) σd)
  | Throw ex σd => Throw ex σd
  | Undefined => Undefined
  end.
Proof.
  intros Hi. destruct σ as [h e pl S W]. cbn [shared] in Hi.
  unfold exec, shared_ptr_reset, shared_ptr_swap, shared_ptr_default, bind.
  rewrite (read_shared_eq _ _ _ _ _ _ _ Hi). mstep. cbn [s_cb s_ptr].
  replace (SharedPtr (s_cb x) (s_ptr x)) with x by (destruct x; reflexivity).
  destruct (shared_ptr_dtor x (State h e pl S W)) as [[] σd | ex σd |] eqn:Hd;
    [|reflexivity..].
  destruct (shared_ptr_dtor_frame _ _ _ Hd) as (HS & _). cbn [shared] in HS.
  unfold ret, write_shared. rewrite HS, Hi. reflexivity.
Qed.

Lemma reset_is_destroy_then_empty_witness :
  let σ := State {[1 := ControlBlock 1 0 (control_block_ptr 100 7%nat)]} [EvNew 1] []
             [SharedPtr 1 100] [] in
  shared σ !! 0%nat = Some (SharedPtr 1 100) /\
  exec (OpReset 0) σ =
  Ok tt (State ∅ [EvNew 1; EvDeleteObject 1; EvDeleter 7%nat 100; EvDelete 1] []
           [shared_ptr_default] []).
Proof.
  intros σ. split; [reflexivity|].
  rewrite (reset_is_destroy_then_empty σ 0 (SharedPtr 1 100) eq_refl).
  vm_compute. reflexivity.
Defined.

(** X10.  [s.reset(p, d)] allocates the block for [p] before it lets go of
    the old value.  When that allocation fails, [d] is called on [p],
    [bad_alloc] propagates, and the object [s], its block and the counters
    are as before.  When it succeeds, [s] owns the new block with
    [use_count() = 1], and the old value is destroyed as by its
    destructor. *)
Theorem reset_raw_allocates_first (σ : state) (i : nat) (x : shared_ptr) (p : Z) (d : deleter) :
  shared σ !! i = Some x ->
  shared_ptr_reset_raw_at i p d σ =
  match plan σ with
  | false :: pl' =>
    Throw bad_alloc (State (heap σ) (events σ ++ [EvDeleter d p]) pl' (shared σ) (weak σ))
  | _ =>
    let bl := fresh_addr (heap σ) in
    match shared_ptr_dtor x
            (State (<[bl := ControlBlock 1 0 (control_block_ptr p d)]> (heap σ))
                   (events σ ++ [EvNew bl]) (tail (plan σ)) (shared σ) (weak σ)) with
    | Ok _ σd => Ok tt (set_shared (fun l => <[i := SharedPtr bl p]> l) σd)
    | Throw ex σd => Throw ex σd
    | Undefined => Undefined
    end
  end.
Proof.
  intros Hi. destruct σ as [h e pl S W]. cbn [shared heap events plan weak] in *.
  unfold shared_ptr_reset_raw_at, bind, shared_ptr_reset_raw, shared_ptr_swap.
  rewrite (read_shared_eq _ _ _ _ _ _ _ Hi). mstep.
  unfold bind. rewrite shared_ptr_from_raw_eq.
  destruct pl as [|[] pl']; try reflexivity; mstep; cbn [s_cb s_ptr];
    replace (SharedPtr (s_cb x) (s_ptr x)) with x by (destruct x; reflexivity);
    match goal with
    | |- context [shared_ptr_dtor x ?σ0] =>
      destruct (shared_ptr_dtor x σ0) as [[] σd | ex σd |] eqn:Hd; try reflexivity;
      destruct (shared_ptr_dtor_frame _ _ _ Hd) as (HS & _); cbn [shared] in HS;
      unfold ret, write_shared; rewrite HS, Hi; reflexivity
    end.
Qed.

Lemma reset_raw_allocates_first_witness :
  let blk := ControlBlock 1 0 (control_block_ptr 100 7%nat) in
  let σ := State {[1 := blk]} [EvNew 1] [false] [SharedPtr 1 100] [] in
  let σ2 := State {[1 := blk]} [EvNew 1] [] [SharedPtr 1 100] [] in
  shared σ !! 0%nat = Some (SharedPtr 1 100) /\
  shared_ptr_reset_raw_at 0 200 9%nat σ =
    Throw bad_alloc (State {[1 := blk]} [EvNew 1; EvDeleter 9%nat 200] [] [SharedPtr 1 100] []) /\
  exists bl,
    shared_ptr_reset_raw_at 0 200 9%nat σ2 =
    Ok tt (State {[bl := ControlBlock 1 0 (control_block_ptr 200 9%nat)]}
             [EvNew 1; EvNew bl; EvDeleteObject 1; EvDeleter 7%nat 100; EvDelete 1] []
             [SharedPtr bl 200] []).
Proof.
  intros blk σ σ2. split; [reflexivity|]. split.
  - exact (reset_raw_allocates_first σ 0 (SharedPtr 1 100) 200 9%nat eq_refl).
  - exists (fresh_addr {[1 := blk]}).
    rewrite (reset_raw_allocates_first σ2 0 (SharedPtr 1 100) 200 9%nat eq_refl).
    vm_compute. reflexivity.
Defined.

Section Swapping.
Variables (h : gmap Z control_block) (e : list event) (pl : list bool)
          (S : list shared_ptr) (W : list weak_ptr).

Lemma swap_s_ptr_eq a b x y :
  S !! a = Some x -> S !! b = Some y ->
  swap_s_ptr a b (State h e pl S W) =
  Ok tt (State h e pl
           (<[b := SharedPtr (s_cb y) (s_ptr x)]> (<[a := SharedPtr (s_cb x) (s_ptr y)]> S)) W).
Proof.
  intros Ha Hb. unfold swap_s_ptr, bind.
  rewrite (read_shared_eq _ _ _ _ _ _ _ Ha). mstep.
  rewrite (read_shared_eq _ _ _ _ _ _ _ Hb). mstep.
  rewrite (write_shared_eq _ _ _ _ _ _ _ _ Ha). mstep.
  destruct (decide (a = b)) as [-> | Hne].
  - assert (x = y) by congruence. subst y.
    assert (Hb' : <[b := SharedPtr (s_cb x) (s_ptr x)]> S !! b
                  = Some (SharedPtr (s_cb x) (s_ptr x)))
      by (apply list_lookup_insert_eq, (lookup_lt_Some _ _ _ Ha)).
    rewrite (read_shared_eq _ _ _ _ _ _ _ Hb'). mstep.
    rewrite (write_shared_eq _ _ _ _ _ _ _ _ Hb'). reflexivity.
  - assert (Hb' : <[a := SharedPtr (s_cb x) (s_ptr y)]> S !! b = Some y)
      by (rewrite list_lookup_insert_ne by exact Hne; exact Hb).
    rewrite (read_shared_eq _ _ _ _ _ _ _ Hb'). mstep.
    rewrite (write_shared_eq _ _ _ _ _ _ _ _ Hb'). reflexivity.
Qed.

Lemma swap_s_cb_eq a b x y :
  S !! a = Some x -> S !! b = Some y ->
  swap_s_cb a b (State h e pl S W) =
  Ok tt (State h e pl
           (<[b := SharedPtr (s_cb x) (s_ptr y)]> (<[a := SharedPtr (s_cb y) (s_ptr x)]> S)) W).
Proof.
  intros Ha Hb. unfold swap_s_cb, bind.
  rewrite (read_shared_eq _ _ _ _ _ _ _ Ha). mstep.
  rewrite (read_shared_eq _ _ _ _ _ _ _ Hb). mstep.
  rewrite (write_shared_eq _ _ _ _ _ _ _ _ Ha). mstep.
  destruct (decide (a = b)) as [-> | Hne].
  - assert (x = y) by congruence. subst y.
    assert (Hb' : <[b := SharedPtr (s_cb x) (s_ptr x)]> S !! b
                  = Some (SharedPtr (s_cb x) (s_ptr x)))
      by (apply list_lookup_insert_eq, (lookup_lt_Some _ _ _ Ha)).
    rewrite (read_shared_eq _ _ _ _ _ _ _ Hb'). mstep.
    rewrite (write_shared_eq _ _ _ _ _ _ _ _ Hb'). reflexivity.
  - assert (Hb' : <[a := SharedPtr (s_cb y) (s_ptr x)]> S !! b = Some y)
      by (rewrite list_lookup_insert_ne by exact Hne; exact Hb).
    rewrite (read_shared_eq _ _ _ _ _ _ _ Hb'). mstep.
    rewrite (write_shared_eq _ _ _ _ _ _ _ _ Hb'). reflexivity.
Qed.

Lemma swap_w_ptr_eq a b x y :
  W !! a = Some x -> W !! b = Some y ->
  swap_w_ptr a b (State h e pl S W) =
  Ok tt (State h e pl S
           (<[b := WeakPtr (w_cb y) (w_ptr x)]> (<[a := WeakPtr (w_cb x) (w_ptr y)]> W))).
Proof.
  intros Ha Hb. unfold swap_w_ptr, bind.
  rewrite (read_weak_eq _ _ _ _ _ _ _ Ha). mstep.
  rewrite (read_weak_eq _ _ _ _ _ _ _ Hb). mstep.
  rewrite (write_weak_eq _ _ _ _ _ _ _ _ Ha). mstep.
  destruct (decide (a = b)) as [-> | Hne].
  - assert (x = y) by congruence. subst y.
    assert (Hb' : <[b := WeakPtr (w_cb x) (w_ptr x)]> W !! b
                  = Some (WeakPtr (w_cb x) (w_ptr x)))
      by (apply list_lookup_insert_eq, (lookup_lt_Some _ _ _ Ha)).
    rewrite (read_weak_eq _ _ _ _ _ _ _ Hb'). mstep.
    rewrite (write_weak_eq _ _ _ _ _ _ _ _ Hb'). reflexivity.
  - assert (Hb' : <[a := WeakPtr (w_cb x) (w_ptr y)]> W !! b = Some y)
      by (rewrite list_lookup_insert_ne by exact Hne; exact Hb).
    rewrite (read_weak_eq _ _ _ _ _ _ _ Hb'). mstep.
    rewrite (write_weak_eq _ _ _ _ _ _ _ _ Hb'). reflexivity.
Qed.

Lemma swap_w_cb_eq a b x y :
  W !! a = Some x -> W !! b = Some y ->
  swap_w_cb a b (State h e pl S W) =
  Ok tt (State h e pl S
           (<[b := WeakPtr (w_cb x) (w_ptr y)]> (<[a := WeakPtr (w_cb y) (w_ptr x)]> W))).
Proof.
  intros Ha Hb. unfold swap_w_cb, bind.
  rewrite (read_weak_eq _ _ _ _ _ _ _ Ha). mstep.
  rewrite (read_weak_eq _ _ _ _ _ _ _ Hb). mstep.
  rewrite (write_weak_eq _ _ _ _ _ _ _ _ Ha). mstep.
  destruct (decide (a = b)) as [-> | Hne].
  - assert (x = y) by congruence. subst y.
    assert (Hb' : <[b := WeakPtr (w_cb x) (w_ptr x)]> W !! b
                  = Some (WeakPtr (w_cb x) (w_ptr x)))
      by (apply list_lookup_insert_eq, (lookup_lt_Some _ _ _ Ha)).
    rewrite (read_weak_eq _ _ _ _ _ _ _ Hb'). mstep.
    rewrite (write_weak_eq _ _ _ _ _ _ _ _ Hb'). reflexivity.
  - assert (Hb' : <[a := WeakPtr (w_cb y) (w_ptr x)]> W !! b = Some y)
      by (rewrite list_lookup_insert_ne by exact Hne; exact Hb).
    rewrite (read_weak_eq _ _ _ _ _ _ _ Hb'). mstep.
    rewrite (write_weak_eq _ _ _ _ _ _ _ _ Hb'). reflexivity.
Qed.
End Swapping.

(** Two updates of a list that set the positions [a] and [b], whatever was
    written there before. *)
Lemma insert_twice_over {A} (l : list A) a b x y x' y' :
  <[b := x]> (<[a := y]> (<[b := x']> (<[a := y']> l))) = <[b := x]> (<[a := y]> l).
Proof.
  destruct (decide (a = b)) as [-> | Hne].
  - rewrite !list_insert_insert_eq. reflexivity.
  - rewrite (list_insert_insert_ne _ a b y x') by exact Hne.
    rewrite !list_insert_insert_eq. reflexivity.
Qed.

Lemma lookup_after_two_inserts {A} (l : list A) a b x y :
  l !! a = Some x -> l !! b = Some y ->
  <[b := x]> (<[a := y]> l) !! a = Some y /\ <[b := x]> (<[a := y]> l) !! b = Some x.
Proof.
  intros Ha Hb.
  pose proof (lookup_lt_Some _ _ _ Ha) as La. pose proof (lookup_lt_Some _ _ _ Hb) as Lb.
  destruct (decide (a = b)) as [-> | Hne].
  - assert (x = y) by congruence. subst y.
    rewrite list_insert_insert_eq. split; apply list_lookup_insert_eq; exact La.
  - split.
    + rewrite list_lookup_insert_ne by congruence. apply list_lookup_insert_eq, La.
    + apply list_lookup_insert_eq. rewrite length_insert. exact Lb.
Qed.

Lemma shared_ptr_swap_at_eq h e pl S W i k x y :
  S !! i = Some x -> S !! k = Some y ->
  shared_ptr_swap_at i k (State h e pl S W) =
  Ok tt (State h e pl (<[k := x]> (<[i := y]> S)) W).
Proof.
  intros Hi Hk. unfold shared_ptr_swap_at, bind.
  rewrite (swap_s_ptr_eq _ _ _ _ _ _ _ _ _ Hi Hk).
  destruct x as [cx px], y as [cy py]. cbn [s_cb s_ptr].
  assert (Hl : <[k := SharedPtr cy px]> (<[i := SharedPtr cx py]> S) !! i =
               Some (SharedPtr (if decide (i = k) then cy else cx)
                               (if decide (i = k) then px else py)) /\
               <[k := SharedPtr cy px]> (<[i := SharedPtr cx py]> S) !! k =
               Some (SharedPtr cy px)).
  { pose proof (lookup_lt_Some _ _ _ Hi) as Li. pose proof (lookup_lt_Some _ _ _ Hk) as Lk.
    split.
    - destruct (decide (i = k)) as [-> | Hne].
      + apply list_lookup_insert_eq. rewrite length_insert. exact Lk.
      + rewrite list_lookup_insert_ne by congruence. apply list_lookup_insert_eq, Li.
    - apply list_lookup_insert_eq. rewrite length_insert. exact Lk. }
  destruct Hl as [Hi' Hk'].
  rewrite (swap_s_cb_eq _ _ _ _ _ _ _ _ _ Hi' Hk'). cbn [s_cb s_ptr].
  rewrite insert_twice_over.
  destruct (decide (i = k)) as [-> | Hne]; [|reflexivity].
  assert (cx = cy /\ px = py) as [-> ->] by (split; congruence).
  reflexivity.
Qed.

Lemma weak_ptr_swap_at_eq h e pl S W j k x y :
  W !! j = Some x -> W !! k = Some y ->
  weak_ptr_swap_at j k (State h e pl S W) =
  Ok tt (State h e pl S (<[k := x]> (<[j := y]> W))).
Proof.
  intros Hj Hk. unfold weak_ptr_swap_at, bind.
  rewrite (swap_w_cb_eq _ _ _ _ _ _ _ _ _ Hj Hk).
  destruct x as [cx px], y as [cy py]. cbn [w_cb w_ptr].
  assert (Hl : <[k := WeakPtr cx py]> (<[j := WeakPtr cy px]> W) !! j =
               Some (WeakPtr (if decide (j = k) then cx else cy)
                             (if decide (j = k) then py else px)) /\
               <[k := WeakPtr cx py]> (<[j := WeakPtr cy px]> W) !! k =
               Some (WeakPtr cx py)).
  { pose proof (lookup_lt_Some _ _ _ Hj) as Lj. pose proof (lookup_lt_Some _ _ _ Hk) as Lk.
    split.
    - destruct (decide (j = k)) as [-> | Hne].
      + apply list_lookup_insert_eq. rewrite length_insert. exact Lk.
      + rewrite list_lookup_insert_ne by congruence. apply list_lookup_insert_eq, Lj.
    - apply list_lookup_insert_eq. rewrite length_insert. exact Lk. }
  destruct Hl as [Hj' Hk'].
  rewrite (swap_w_ptr_eq _ _ _ _ _ _ _ _ _ Hj' Hk'). cbn [w_cb w_ptr].
  rewrite insert_twice_over.
  destruct (decide (j = k)) as [-> | Hne]; [|reflexivity].
  assert (cx = cy /\ px = py) as [-> ->] by (split; congruence).
  reflexivity.
Qed.

(** X11.  [a.swap(b)] exchanges the two handle objects (both members) and
    touches nothing else: no counter, no event; swapping an object with
    itself changes nothing, and swapping twice gives the first state back.
    The same holds for weak pointers. *)
Theorem swap_exchanges_and_undoes
    (σ : state) (i k j m : nat) (x y : shared_ptr) (u v : weak_ptr) :
  shared σ !! i = Some x -> shared σ !! k = Some y ->
  weak σ !! j = Some u -> weak σ !! m = Some v ->
  let σs := set_shared (fun l => <[k := x]> (<[i := y]> l)) σ in
  let σw := set_weak (fun l => <[m := u]> (<[j := v]> l)) σ in
  shared_ptr_swap_at i k σ = Ok tt σs /\
  shared_ptr_swap_at i k σs = Ok tt σ /\
  shared_ptr_swap_at i i σ = Ok tt σ /\
  weak_ptr_swap_at j m σ = Ok tt σw /\
  weak_ptr_swap_at j m σw = Ok tt σ /\
  weak_ptr_swap_at j j σ = Ok tt σ.
Proof.
  destruct σ as [h e pl S W]. unfold set_shared, set_weak.
  cbn [heap events plan shared weak]. intros Hi Hk Hj Hm.
  destruct (lookup_after_two_inserts S i k x y Hi Hk) as [Hi' Hk'].
  destruct (lookup_after_two_inserts W j m u v Hj Hm) as [Hj' Hm'].
  assert (HS : <[k := y]> (<[i := x]> S) = S)
    by (rewrite (list_insert_id S i x Hi); apply list_insert_id, Hk).
  assert (HW : <[m := v]> (<[j := u]> W) = W)
    by (rewrite (list_insert_id W j u Hj); apply list_insert_id, Hm).
  repeat split.
  - apply shared_ptr_swap_at_eq; assumption.
  - rewrite (shared_ptr_swap_at_eq _ _ _ _ _ _ _ _ _ Hi' Hk').
    rewrite insert_twice_over, HS. reflexivity.
  - rewrite (shared_ptr_swap_at_eq _ _ _ _ _ _ _ _ _ Hi Hi).
    rewrite list_insert_insert_eq, (list_insert_id S i x Hi). reflexivity.
  - apply weak_ptr_swap_at_eq; assumption.
  - rewrite (weak_ptr_swap_at_eq _ _ _ _ _ _ _ _ _ Hj' Hm').
    rewrite insert_twice_over, HW. reflexivity.
  - rewrite (weak_ptr_swap_at_eq _ _ _ _ _ _ _ _ _ Hj Hj).
    rewrite list_insert_insert_eq, (list_insert_id W j u Hj). reflexivity.
Qed.

Lemma swap_exchanges_and_undoes_witness :
  let σ := State {[1 := ControlBlock 1 1 (control_block_ptr 100 7%nat)]} [EvNew 1] []
             [SharedPtr 1 100; SharedPtr nullptr nullptr]
             [WeakPtr nullptr nullptr; WeakPtr 1 100] in
  let σs := State (heap σ) (events σ) [] [SharedPtr nullptr nullptr; SharedPtr 1 100]
              (weak σ) in
  shared σ !! 0%nat = Some (SharedPtr 1 100) /\
  shared σ !! 1%nat = Some (SharedPtr nullptr nullptr) /\
  weak σ !! 0%nat = Some (WeakPtr nullptr nullptr) /\
  weak σ !! 1%nat = Some (WeakPtr 1 100) /\
  shared_ptr_swap_at 0 1 σ = Ok tt σs /\
  shared_ptr_swap_at 0 1 σs = Ok tt σ.
Proof.
  intros σ σs. do 4 (split; [reflexivity|]).
  pose proof (swap_exchanges_and_undoes σ 0 1 0 1 (SharedPtr 1 100) (SharedPtr nullptr nullptr)
                (WeakPtr nullptr nullptr) (WeakPtr 1 100) eq_refl eq_refl eq_refl eq_refl) as H.
  cbv zeta in H. destruct H as (H1 & H2 & _). split; [exact H1 | exact H2].
Defined.

(** ** States that client programs reach *)

Lemma reached_good pl tr σ :
  trace_ok tr (init pl) = true ->
  (run tr (init pl) = Ok tt σ \/ exists ex, run tr (init pl) = Throw ex σ) ->
  good None σ.
Proof.
  intros Hok Hrun.
  pose proof (run_preserved None tr (init pl) (good_init pl) Hok) as Hp.
  destruct Hrun as [Hrun | [ex Hrun]]; rewrite Hrun in Hp; cbn in Hp.
  - apply Hp. intros Hne; contradiction.
  - apply Hp. intros Hne; contradiction.
Qed.

Lemma good_wf track σ : good track σ -> wf σ.
Proof. intros [[Hc _] Hl]. split; assumption. Qed.

(** An owner in the store means an allocated block that counts all its
    owners. *)
Lemma owner_block_counts track σ i x :
  good track σ -> shared σ !! i = Some x -> s_cb x <> nullptr ->
  exists b, heap σ !! s_cb x = Some b /\ ref_count b = owners (s_cb x) (shared σ) /\
            ref_count b <> 0.
Proof.
  intros [[Hcons _] _] Hi Hc. specialize (Hcons (s_cb x) Hc).
  pose proof (count_cb_pos s_cb (s_cb x) (shared σ) i x Hi eq_refl) as Hpos.
  fold (owners (s_cb x) (shared σ)) in Hpos.
  destruct (heap σ !! s_cb x) as [b|]; [|lia].
  exists b. destruct Hcons as (Hr & _). repeat split; [exact Hr | lia].
Qed.

Lemma watcher_block_counts track σ j y :
  good track σ -> weak σ !! j = Some y -> w_cb y <> nullptr ->
  exists b, heap σ !! w_cb y = Some b /\ ref_count b = owners (w_cb y) (shared σ).
Proof.
  intros [[Hcons _] _] Hj Hc. specialize (Hcons (w_cb y) Hc).
  pose proof (count_cb_pos w_cb (w_cb y) (weak σ) j y Hj eq_refl) as Hpos.
  fold (watchers (w_cb y) (weak σ)) in Hpos.
  destruct (heap σ !! w_cb y) as [b|]; [|lia].
  exists b. destruct Hcons as (Hr & _). split; [reflexivity | exact Hr].
Qed.


Lemma tracked_owner c d0 f0 σ i x :
  good (Some (c, d0, f0)) σ -> shared σ !! i = Some x -> s_cb x = c -> c <> nullptr ->
  destroyed c (events σ) = d0.
Proof.
  intros Hg Hi Hx Hc. subst c.
  destruct (owner_block_counts _ _ _ _ Hg Hi Hc) as (b & Hb & _ & Hnz).
  destruct Hg as [[_ Htr] _]. unfold tracked in Htr. rewrite Hb in Htr.
  destruct (Z.eqb_spec (ref_count b) 0); [contradiction|]. lia.
Qed.



(** X13.  In every state a program reaches, [use_count()] of a shared
    pointer object, and of a weak pointer object, is the number of shared
    pointer objects that refer to the same block (0 for a null
    control-block pointer). *)
Theorem use_count_counts_owners (pl : list bool) (tr : list op) (σ : state) :
  trace_ok tr (init pl) = true ->
  run tr (init pl) = Ok tt σ ->
  (forall i x, shared σ !! i = Some x ->
     shared_ptr_use_count x σ =
     Ok (if s_cb x =? nullptr then 0 else owners (s_cb x) (shared σ)) σ) /\
  (forall j y, weak σ !! j = Some y ->
     weak_ptr_use_count y σ =
     Ok (if w_cb y =? nullptr then 0 else owners (w_cb y) (shared σ)) σ).
Proof.
  intros Hok Hrun. pose proof (reached_good pl tr σ Hok (or_introl Hrun)) as Hg. split.
  - intros i [c q] Hi. cbn [s_cb]. destruct (Z.eqb_spec c nullptr) as [-> | Hc].
    + reflexivity.
    + destruct (owner_block_counts _ _ _ _ Hg Hi Hc) as (b & Hb & Hr & _).
      cbn [s_cb] in *. rewrite <- Hr. destruct σ as [h e p S W].
      apply (shared_ptr_use_count_eq _ _ _ _ _ _ _ Hc Hb).
  - intros j [c q] Hj. cbn [w_cb]. destruct (Z.eqb_spec c nullptr) as [-> | Hc].
    + reflexivity.
    + destruct (watcher_block_counts _ _ _ _ Hg Hj Hc) as (b & Hb & Hr).
      cbn [w_cb] in *. rewrite <- Hr. destruct σ as [h e p S W].
      apply (weak_ptr_use_count_eq _ _ _ _ _ _ _ Hc Hb).
Qed.

Lemma use_count_counts_owners_witness :
  let tr := [OpNew 100 7%nat; OpCopy 0; OpAlias 1 104; OpWeak 2; OpMove 0; OpDestroy 1] in
  let σ := State {[1 := ControlBlock 2 1 (control_block_ptr 100 7%nat)]} [EvNew 1] []
             [SharedPtr nullptr nullptr; SharedPtr 1 104; SharedPtr 1 100] [WeakPtr 1 104] in
  trace_ok tr (init []) = true /\
  run tr (init []) = Ok tt σ /\
  shared_ptr_use_count (SharedPtr 1 104) σ = Ok 2 σ /\
  shared_ptr_use_count (SharedPtr nullptr nullptr) σ = Ok 0 σ /\
  weak_ptr_use_count (WeakPtr 1 104) σ = Ok 2 σ.
Proof.
  intros tr σ.
  assert (Hok : trace_ok tr (init []) = true) by (vm_compute; reflexivity).
  assert (Hrun : run tr (init []) = Ok tt σ) by (vm_compute; reflexivity).
  destruct (use_count_counts_owners [] tr σ Hok Hrun) as [Hs Hw].
  split; [exact Hok|]. split; [exact Hrun|].
  split; [exact (Hs 1%nat (SharedPtr 1 104) eq_refl)|].
  split; [exact (Hs 0%nat (SharedPtr nullptr nullptr) eq_refl)|].
  exact (Hw 0%nat (WeakPtr 1 104) eq_refl).
Defined.





(** ** Assignment between different objects *)

Section Assigning.
Variable track : option (Z * nat * nat).
Variables (h : gmap Z control_block) (e : list event) (pl : list bool)
          (S : list shared_ptr) (W : list weak_ptr).
Hypothesis Hgood : good track (State h e pl S W).



Lemma weak_ptr_assign_copy_good j k yj yk :
  W !! j = Some yj -> W !! k = Some yk ->
  exists h2 e2,
    weak_ptr_assign_copy j k (State h e pl S W) =
      Ok tt (State h2 e2 pl S (<[j := yk]> W)) /\
    good track (State h2 e2 pl S (<[j := yk]> W)).
Proof.
  intros Hj Hk. destruct yj as [cj qj], yk as [ck qk].
  destruct Hgood as (Hinv & HlenS & HlenW). cbn [heap events shared weak] in *.
  destruct (weak_ptr_copy_step track h e pl S S W W k _ Hinv HlenW Hk) as (h1 & Hrun & Hinv1).
  apply (inv_replace_weak _ _ _ _ _ j _ _ Hj) in Hinv1.
  destruct (weak_ptr_dtor_step track h1 e pl S S _ (<[j := WeakPtr ck qk]> W) _ Hinv1)
    as (h2 & e2 & Hrun2 & Hinv2).
  exists h2, e2. split.
  - unfold weak_ptr_assign_copy, bind, weak_ptr_swap.
    rewrite (read_weak_eq _ _ _ _ _ _ _ Hk). mstep. rewrite Hrun. mstep.
    rewrite (read_weak_eq _ _ _ _ _ _ _ Hj). mstep.
    rewrite (write_weak_eq _ _ _ _ _ _ _ _ Hj).
    cbn [w_cb w_ptr]. exact Hrun2.
  - split; [exact Hinv2|]. cbn [shared weak]. rewrite length_insert. split; assumption.
Qed.

Lemma weak_ptr_assign_move_good j k yj yk :
  j <> k -> W !! j = Some yj -> W !! k = Some yk ->
  exists h2 e2,
    weak_ptr_assign_move j k (State h e pl S W) =
      Ok tt (State h2 e2 pl S (<[j := yk]> (<[k := WeakPtr nullptr nullptr]> W))) /\
    good track (State h2 e2 pl S (<[j := yk]> (<[k := WeakPtr nullptr nullptr]> W))).
Proof.
  intros Hne Hj Hk. destruct yj as [cj qj], yk as [ck qk].
  destruct Hgood as (Hinv & HlenS & HlenW).
  cbn [heap events shared weak] in *.
  assert (Hj' : <[k := WeakPtr nullptr nullptr]> W !! j = Some (WeakPtr cj qj))
    by (rewrite list_lookup_insert_ne by congruence; exact Hj).
  pose proof (inv_gain_weak_null track h e S W nullptr Hinv) as Hinv1.
  apply (inv_replace_weak _ _ _ _ _ k _ _ Hk) in Hinv1.
  apply (inv_replace_weak _ _ _ _ _ j _ _ Hj') in Hinv1.
  destruct (weak_ptr_dtor_step track h e pl S S _
              (<[j := WeakPtr ck qk]> (<[k := WeakPtr nullptr nullptr]> W)) _ Hinv1)
    as (h2 & e2 & Hrun2 & Hinv2).
  exists h2, e2. split.
  - unfold weak_ptr_assign_move. destruct (Nat.eqb_spec j k); [contradiction|]. cbn [negb].
    unfold bind, weak_ptr_move, weak_ptr_swap.
    rewrite (read_weak_eq _ _ _ _ _ _ _ Hk). mstep.
    rewrite (write_weak_eq _ _ _ _ _ _ _ _ Hk). mstep.
    rewrite (read_weak_eq _ _ _ _ _ _ _ Hj'). mstep.
    rewrite (write_weak_eq _ _ _ _ _ _ _ _ Hj').
    cbn [w_cb w_ptr]. exact Hrun2.
  - split; [exact Hinv2|]. cbn [shared weak]. rewrite !length_insert. split; assumption.
Qed.
End Assigning.







(** X17.  In a state a program has reached, the two assignments between
    weak pointer objects return.  After [w_j = w_k] the object [w_j] has
    the value of [w_k]; after [w_j = std::move(w_k)] for different objects
    it has that value and [w_k] is empty.  No shared pointer object and no
    other weak pointer object changes, and the counters agree with the
    handles again. *)
Theorem weak_assignment_effect
    (pl : list bool) (tr : list op) (σ : state) (j k : nat) (yj yk : weak_ptr) :
  trace_ok tr (init pl) = true ->
  run tr (init pl) = Ok tt σ ->
  weak σ !! j = Some yj -> weak σ !! k = Some yk ->
  (exists σ',
     weak_ptr_assign_copy j k σ = Ok tt σ' /\
     weak σ' = <[j := yk]> (weak σ) /\ shared σ' = shared σ /\ wf σ') /\
  (j <> k ->
   exists σ',
     weak_ptr_assign_move j k σ = Ok tt σ' /\
     weak σ' = <[j := yk]> (<[k := WeakPtr nullptr nullptr]> (weak σ)) /\
     shared σ' = shared σ /\ wf σ').
Proof.
  intros Hok Hrun Hj Hk.
  pose proof (reached_good pl tr σ Hok (or_introl Hrun)) as Hg.
  destruct σ as [h e p S W]. cbn [shared weak] in *. split.
  - destruct (weak_ptr_assign_copy_good None h e p S W Hg j k yj yk Hj Hk)
      as (h2 & e2 & Hrun2 & Hg2).
    eexists. split; [exact Hrun2|]. cbn [shared weak].
    split; [reflexivity|]. split; [reflexivity | exact (good_wf _ _ Hg2)].
  - intros Hne.
    destruct (weak_ptr_assign_move_good None h e p S W Hg j k yj yk Hne Hj Hk)
      as (h2 & e2 & Hrun2 & Hg2).
    eexists. split; [exact Hrun2|]. cbn [shared weak].
    split; [reflexivity|]. split; [reflexivity | exact (good_wf _ _ Hg2)].
Qed.

Lemma weak_assignment_effect_witness :
  let tr := [OpNew 100 7%nat; OpNew 200 8%nat; OpWeak 0; OpWeak 1; OpDestroy 0] in
  let σ := State {[1 := ControlBlock 0 1 (control_block_ptr 100 7%nat);
                   2 := ControlBlock 1 1 (control_block_ptr 200 8%nat)]}
             [EvNew 1; EvNew 2; EvDeleteObject 1; EvDeleter 7%nat 100] []
             [SharedPtr 2 200] [WeakPtr 1 100; WeakPtr 2 200] in
  trace_ok tr (init []) = true /\
  run tr (init []) = Ok tt σ /\
  weak σ !! 0%nat = Some (WeakPtr 1 100) /\
  weak σ !! 1%nat = Some (WeakPtr 2 200) /\
  exists σ',
    weak_ptr_assign_copy 0 1 σ = Ok tt σ' /\
    weak σ' = [WeakPtr 2 200; WeakPtr 2 200] /\ wf σ'.
Proof.
  intros tr σ.
  assert (Hok : trace_ok tr (init []) = true) by (vm_compute; reflexivity).
  assert (Hrun : run tr (init []) = Ok tt σ) by (vm_compute; reflexivity).
  split; [exact Hok|]. split; [exact Hrun|]. split; [reflexivity|]. split; [reflexivity|].
  destruct (weak_assignment_effect [] tr σ 0 1 (WeakPtr 1 100) (WeakPtr 2 200)
              Hok Hrun eq_refl eq_refl) as [(σ' & Ha & HW & _ & Hwf) _].
  exists σ'. split; [exact Ha|]. split; [exact HW | exact Hwf].
Defined.

(** X18.  A statement on weak pointers (creating one from a shared
    pointer, copying, moving, assigning or destroying one) never destroys a
    payload, whatever the state it runs in. *)
Theorem weak_statements_destroy_no_payload (o : op) (σ : state) (bl : Z) :
  is_weak_stmt o = true ->
  match exec o σ with
  | Ok _ σ' => destroyed bl (events σ') = destroyed bl (events σ)
  | Throw _ σ' => destroyed bl (events σ') = destroyed bl (events σ)
  | Undefined => True
  end.
Proof.
  intros Ho.
  assert (Hk : keeps (destroyed_is bl (destroyed bl (events σ))) (exec o)).
  { apply keeps_exec_weak; [| | | exact Ho].
    - intros. apply destroyed_is_store.
    - intros f σ0 H. exact H.
    - intros. apply destroyed_is_delete_cb. }
  exact (Hk σ eq_refl).
Qed.

Lemma weak_statements_destroy_no_payload_witness :
  let σ := State {[1 := ControlBlock 0 1 (control_block_ptr 100 7%nat)]}
             [EvNew 1; EvDeleteObject 1; EvDeleter 7%nat 100] [] [] [WeakPtr 1 100] in
  is_weak_stmt (OpWeakDestroy 0) = true /\
  exec (OpWeakDestroy 0) σ =
    Ok tt (State ∅ [EvNew 1; EvDeleteObject 1; EvDeleter 7%nat 100; EvDelete 1] [] [] []) /\
  destroyed 1 [EvNew 1; EvDeleteObject 1; EvDeleter 7%nat 100; EvDelete 1] =
  destroyed 1 (events σ).
Proof.
  intros σ. split; [reflexivity|].
  assert (Hrun : exec (OpWeakDestroy 0) σ =
    Ok tt (State ∅ [EvNew 1; EvDeleteObject 1; EvDeleter 7%nat 100; EvDelete 1] [] [] []))
    by (vm_compute; reflexivity).
  split; [exact Hrun|].
  pose proof (weak_statements_destroy_no_payload (OpWeakDestroy 0) σ 1 eq_refl) as H.
  rewrite Hrun in H. exact H.
Defined.

